(** * subs-check: the failure ledger, the source-list editor, the lifecycle
      manager and the single-flight scheduler

    A shallow embedding of [app/subs_state.go] and of the scheduling and
    lifecycle code of package [app] (type [App]), with the properties of
    the specification stated over it.

    Conventions.
    - Go's [int] is the 64-bit two's-complement integer of the platforms the
      program is built for; it is a [Z] and every arithmetic operation of
      the source is followed by [GoInt.wrap].
    - [map[string]int] is [gmap string Z]; reading a missing key yields the
      zero value, as in Go.
    - A pointer receiver that is mutated in place becomes state passing.
    - [slog] calls and [os.WriteFile] calls are recorded, in order, in a
      trace of [event]s. *)

From stdpp Require Import gmap strings list fin_maps.

Local Open Scope Z_scope.
#[local] Set Warnings "-register-all".


(** ** Go's [int] *)

Module GoInt.

Definition int_size : Z := 64.
Definition max_int : Z := 2 ^ (int_size - 1) - 1.
Definition min_int : Z := - 2 ^ (int_size - 1).

(** Signed wrap-around of an arithmetic result. *)
Definition wrap (z : Z) : Z :=
  (z - min_int) `mod` 2 ^ int_size + min_int.

Definition in_range (z : Z) : Prop := min_int ≤ z ≤ max_int.

End GoInt.

(** ** Errors, log records and the effect trace *)

(** The errors built with [fmt.Errorf] in the two files; a wrapped error
    ([%w]) keeps its cause. *)
Inductive error : Type :=
| ErrReadState                 (* 读取订阅状态文件失败 *)
| ErrWriteState                (* 写入订阅状态文件失败 *)
| ErrReadConfig                (* 读取配置文件失败 *)
| ErrParseConfig               (* 解析配置文件失败 *)
| ErrSubUrlsFormat             (* sub-urls字段格式错误 *)
| ErrWriteConfig               (* 写入配置文件失败 *)
| ErrLoadState (cause : error) (* 加载订阅状态失败: %w *)
| ErrRemoveUrls (cause : error)(* 从配置文件移除URL失败: %w *)
| ErrSaveState (cause : error) (* 保存订阅状态失败: %w *)
| ErrCheck.                    (* 检测代理失败: %w, the cause is check.Check's *)

Inductive level : Type := LDebug | LInfo | LWarn | LError.

Inductive message : Type :=
| MsgStateFileMissing                          (* 订阅状态文件不存在，创建新状态 *)
| MsgStateParseFailed                          (* 解析订阅状态文件失败，创建新状态 *)
| MsgFailCountUpdated (url : string) (count : Z) (* 订阅失败计数更新 *)
| MsgFailCountCleared (url : string)           (* 订阅成功，清零失败计数 *)
| MsgStateCleaned (url : string)               (* 清理订阅状态记录 *)
| MsgFoundToRemove (count : nat) (urls : list string) (* 发现需要移除的订阅 *)
| MsgAutoRemoved (count : nat)                 (* 已自动移除失败订阅 *)
| MsgConfigRemoved (removed : nat) (remaining : nat) (* 已从配置文件移除订阅 *)
| MsgLifecycleFailed (e : error)               (* 处理订阅生命周期失败 *)
| MsgPrepareCheck                              (* 开始准备检测代理 *)
| MsgCheckDone                                 (* 检测完成 *)
| MsgManualTrigger                             (* 手动触发检测 *)
| MsgManualBusy                                (* 已有检测正在进行，忽略本次触发 *)
| MsgCheckSkipped                              (* 已有检测正在进行，跳过本次检测 *)
| MsgCheckFailed (e : error)                   (* 检测代理失败: %v *)
| MsgNextCheck.                                (* 下次检查时间: ... *)

(** The two files this code reads and writes. *)
Inductive path : Type :=
| ConfigPath    (* app.configPath *)
| StatePath.    (* filepath.Join(configDir, "subs_state.json") *)

Inductive event : Type :=
| Log (l : level) (m : message)
| WriteFile (p : path).

(** ** The failure ledger ([SubsState]) *)

Record SubsState : Type := mkSubsState {
  FailCounts : gmap string Z
}.

Definition NewSubsState : SubsState := {| FailCounts := ∅ |}.

(** [s.FailCounts[url]]: a missing key reads as 0. *)
Definition GetFailCount (s : SubsState) (url : string) : Z :=
  default 0 (FailCounts s !! url).

Definition GetTotalUrls (s : SubsState) : nat := size (FailCounts s).

Definition UpdateFailCount (s : SubsState) (url : string) (failed : bool)
  : SubsState * list event :=
  if failed then
    let s' := {| FailCounts :=
                  <[url := GoInt.wrap (GetFailCount s url + 1)]> (FailCounts s) |} in
    (s', [Log LDebug (MsgFailCountUpdated url (GetFailCount s' url))])
  else
    ({| FailCounts := <[url := 0]> (FailCounts s) |},
     if bool_decide (0 < GetFailCount s url)
     then [Log LDebug (MsgFailCountCleared url)]
     else []).

(** [GetFailedUrls]: the keys whose count reaches the threshold, appended
    one by one while ranging over the map. Go ranges over a map in an
    unspecified order; the order of [map_to_list] stands for it, and the
    statements below speak of membership only. *)
Definition GetFailedUrls (s : SubsState) (threshold : Z) : list string :=
  if bool_decide (threshold ≤ 0) then []
  else
    foldl (λ failedUrls '(url, count),
             if bool_decide (threshold ≤ count) then failedUrls ++ [url]
             else failedUrls)
          [] (map_to_list (FailCounts s)).

Fixpoint CleanupUrls (s : SubsState) (urls : list string)
  : SubsState * list event :=
  match urls with
  | [] => (s, [])
  | url :: rest =>
      let s1 := {| FailCounts := delete url (FailCounts s) |} in
      let '(s2, t) := CleanupUrls s1 rest in
      (s2, Log LDebug (MsgStateCleaned url) :: t)
  end.

(** Recording a sequence of outcomes for one source, oldest first. *)
Definition record_all (s : SubsState) (url : string) (outcomes : list bool)
  : SubsState :=
  foldl (λ st failed, (UpdateFailCount st url failed).1) s outcomes.

(** ** The disk

    The code touches two files: the configuration document at
    [app.configPath] and the ledger file [subs_state.json] next to it. A
    file is described by what the code can observe of it: whether it
    exists, whether [os.ReadFile] succeeds, and what the decoder
    ([json.Unmarshal] into [SubsState], [yaml.Unmarshal] into
    [map[string]any]) makes of its bytes. Writing a document and reading
    it back yields the document written. *)

Inductive file (A : Type) : Type :=
| Missing                 (* no such file *)
| Unreadable              (* the file exists, os.ReadFile fails *)
| Garbled                 (* readable, the decoder returns an error *)
| Holds (doc : A).        (* readable, decoded as doc *)
Arguments Missing {A}.
Arguments Unreadable {A}.
Arguments Garbled {A}.
Arguments Holds {A} doc.

(** A decoded YAML value ([any]). *)
Inductive any : Type :=
| VNil
| VBool (b : bool)
| VInt (z : Z)
| VString (s : string)
| VSlice (l : list any)
| VMap (m : list (string * any)).

Record disk : Type := mkDisk {
  config_file : file (gmap string any);
  config_writable : bool;          (* os.WriteFile(app.configPath) succeeds *)
  (* [None]: the JSON document has no (or a null) "fail_counts" *)
  state_file : file (option (gmap string Z));
  state_writable : bool            (* os.WriteFile(statePath) succeeds *)
}.

Definition set_config_file (d : disk) (f : file (gmap string any)) : disk :=
  {| config_file := f; config_writable := config_writable d;
     state_file := state_file d; state_writable := state_writable d |}.

Definition set_state_file (d : disk) (f : file (option (gmap string Z))) : disk :=
  {| config_file := config_file d; config_writable := config_writable d;
     state_file := f; state_writable := state_writable d |}.

(** ** Code that reads and writes the disk, logs and may fail *)

Inductive result (A : Type) : Type :=
| Ok (a : A)
| Err (e : error).
Arguments Ok {A} a.
Arguments Err {A} e.

Definition is_err {A} (r : result A) : bool :=
  match r with Err _ => true | Ok _ => false end.

Definition M (A : Type) : Type := disk → result A * disk * list event.

#[global] Instance M_ret : MRet M := λ A a d, (Ok a, d, []).

#[global] Instance M_bind : MBind M := λ A B f m d,
  match m d with
  | (Ok a, d1, t1) => let '(r, d2, t2) := f a d1 in (r, d2, t1 ++ t2)
  | (Err e, d1, t1) => (Err e, d1, t1)
  end.

Definition emit (t : list event) : M unit := λ d, (Ok (), d, t).

(** [if err != nil { return fmt.Errorf("...: %w", err) }] *)
Definition wrap_err {A} (w : error → error) (m : M A) : M A := λ d,
  match m d with
  | (Err e, d1, t1) => (Err (w e), d1, t1)
  | ok => ok
  end.

(** A pure step on the ledger that logs. *)
Definition logged {A} (x : A * list event) : M A := λ d, (Ok x.1, d, x.2).

Definition LoadSubsState : M SubsState := λ d,
  match state_file d with
  | Missing => (Ok NewSubsState, d, [Log LDebug MsgStateFileMissing])
  | Unreadable => (Err ErrReadState, d, [])
  | Garbled => (Ok NewSubsState, d, [Log LWarn MsgStateParseFailed])
  | Holds None => (Ok {| FailCounts := ∅ |}, d, [])
  | Holds (Some counts) => (Ok {| FailCounts := counts |}, d, [])
  end.

(** [json.MarshalIndent] of a [SubsState] does not fail; [os.WriteFile]
    may. A failed write leaves the file as it was. *)
Definition SaveToFile (s : SubsState) : M unit := λ d,
  if state_writable d
  then (Ok (), set_state_file d (Holds (Some (FailCounts s))), [WriteFile StatePath])
  else (Err ErrWriteState, d, [WriteFile StatePath]).

(** ** The source-list editor *)

Definition make_removeSet (urlsToRemove : list string) : gmap string bool :=
  foldl (λ removeSet url, <[url := true]> removeSet) ∅ urlsToRemove.

(** The filtering loop, with its two accumulators. *)
Fixpoint filter_loop (removeSet : gmap string bool) (subUrls : list any)
    (filteredUrls : list any) (removedCount : nat) : list any * nat :=
  match subUrls with
  | [] => (filteredUrls, removedCount)
  | urlInterface :: rest =>
      match urlInterface with
      | VString urlStr =>
          if negb (default false (removeSet !! urlStr))
          then filter_loop removeSet rest (filteredUrls ++ [urlInterface]) removedCount
          else filter_loop removeSet rest filteredUrls (S removedCount)
      | _ => filter_loop removeSet rest (filteredUrls ++ [urlInterface]) removedCount
      end
  end.

Definition sub_urls_key : string := "sub-urls".

(** [yaml.Marshal] of a document that [yaml.Unmarshal] produced does not
    fail; [os.WriteFile] may, and then the file is as it was. *)
Definition removeUrlsFromConfig (urlsToRemove : list string) : M unit := λ d,
  match config_file d with
  | Missing | Unreadable => (Err ErrReadConfig, d, [])
  | Garbled => (Err ErrParseConfig, d, [])
  | Holds yamlData =>
      match yamlData !! sub_urls_key with
      | None => (Ok (), d, [])
      | Some (VSlice subUrls) =>
          let removeSet := make_removeSet urlsToRemove in
          let '(filteredUrls, removedCount) := filter_loop removeSet subUrls [] 0%nat in
          if bool_decide (removedCount = 0%nat) then (Ok (), d, [])
          else
            let yamlData' := <[sub_urls_key := VSlice filteredUrls]> yamlData in
            if config_writable d
            then (Ok (), set_config_file d (Holds yamlData'),
                  [WriteFile ConfigPath;
                   Log LInfo (MsgConfigRemoved removedCount (length filteredUrls))])
            else (Err ErrWriteConfig, d, [WriteFile ConfigPath])
      | Some _ => (Err ErrSubUrlsFormat, d, [])
      end
  end.

(** ** The lifecycle manager *)

(** [for _, url := range urls { state.UpdateFailCount(url, failed) }] *)
Fixpoint update_each (s : SubsState) (urls : list string) (failed : bool)
  : SubsState * list event :=
  match urls with
  | [] => (s, [])
  | url :: rest =>
      let '(s1, t1) := UpdateFailCount s url failed in
      let '(s2, t2) := update_each s1 rest failed in
      (s2, t1 ++ t2)
  end.

(** [threshold] is [config.GlobalConfig.SubUrlsFailRemove]; the two lists
    are what [proxies.GetAndResetRunStats] returns for the round. *)
Definition handleSubsLifecycle (threshold : Z)
    (successUrls failedUrls : list string) : M unit :=
  if bool_decide (threshold ≤ 0) then mret ()
  else if bool_decide (length successUrls = 0%nat ∧ length failedUrls = 0%nat)
  then mret ()
  else
    state ← wrap_err ErrLoadState LoadSubsState;
    state ← logged (update_each state successUrls false);
    state ← logged (update_each state failedUrls true);
    let urlsToRemove := GetFailedUrls state threshold in
    state ←
      (if bool_decide (0 < length urlsToRemove)%nat then
         emit [Log LWarn (MsgFoundToRemove (length urlsToRemove) urlsToRemove)];;
         wrap_err ErrRemoveUrls (removeUrlsFromConfig urlsToRemove);;
         state ← logged (CleanupUrls state urlsToRemove);
         emit [Log LInfo (MsgAutoRemoved (length urlsToRemove))];;
         mret state
       else mret state);
    wrap_err ErrSaveState (SaveToFile state).

(** ** The scheduler: goroutines, the single-flight flag, the manual trigger

    The goroutines of the process are interleaved one atomic step at a
    time. A goroutine that executes [triggerCheck] is at one of three
    control points. *)

Inductive tc_pc : Type :=
| AtCas                   (* entered, about to execute CompareAndSwap *)
| InCheck                 (* won the swap; check.Check is running *)
| Returned (ran : bool).  (* triggerCheck has returned; ran = it ran the round *)

(** The goroutine that executes [Run]. *)
Inductive main_pc : Type :=
| MainCall (p : tc_pc)    (* inside the first, synchronous app.triggerCheck() *)
| MainRecv                (* blocked in [for range app.checkChan] *)
| MainGo.                 (* received a signal, about to [go app.triggerCheck()] *)

Inductive gid : Type :=
| GMain
| GWorker (i : nat).

#[global] Instance gid_eq_dec : EqDecision gid.
Proof. solve_decision. Defined.

(** What [check.Check] hands back, with the statistics that
    [proxies.GetAndResetRunStats] reports for that round. *)
Inductive check_outcome : Type :=
| CheckErr
| CheckOk (successUrls failedUrls : list string).

Record world : Type := mkWorld {
  checking : bool;               (* app.checking *)
  main : main_pc;
  (* the goroutines started by [go app.triggerCheck()], by the ticker
     loop and by cron, in order of creation *)
  workers : list tc_pc;
  rounds : nat;                  (* how many times checkProxies was entered *)
  SubUrlsFailRemove : Z;         (* config.GlobalConfig.SubUrlsFailRemove *)
  dsk : disk;
  trace : list event;
  exited : option Z              (* os.Exit status, once the process is gone *)
}.

Definition set_checking (b : bool) (w : world) : world :=
  mkWorld b (main w) (workers w) (rounds w) (SubUrlsFailRemove w) (dsk w)
          (trace w) (exited w).
Definition set_main (m : main_pc) (w : world) : world :=
  mkWorld (checking w) m (workers w) (rounds w) (SubUrlsFailRemove w) (dsk w)
          (trace w) (exited w).
Definition set_workers (l : list tc_pc) (w : world) : world :=
  mkWorld (checking w) (main w) l (rounds w) (SubUrlsFailRemove w) (dsk w)
          (trace w) (exited w).
Definition set_rounds (n : nat) (w : world) : world :=
  mkWorld (checking w) (main w) (workers w) n (SubUrlsFailRemove w) (dsk w)
          (trace w) (exited w).
Definition set_dsk (d : disk) (w : world) : world :=
  mkWorld (checking w) (main w) (workers w) (rounds w) (SubUrlsFailRemove w) d
          (trace w) (exited w).
Definition emit_w (t : list event) (w : world) : world :=
  mkWorld (checking w) (main w) (workers w) (rounds w) (SubUrlsFailRemove w)
          (dsk w) (trace w ++ t) (exited w).
Definition os_Exit (code : Z) (w : world) : world :=
  mkWorld (checking w) (main w) (workers w) (rounds w) (SubUrlsFailRemove w)
          (dsk w) (trace w) (Some code).

Definition pc_of (w : world) (g : gid) : option tc_pc :=
  match g with
  | GMain => match main w with MainCall p => Some p | _ => None end
  | GWorker i => workers w !! i
  end.

Definition set_pc (g : gid) (p : tc_pc) (w : world) : world :=
  match g with
  | GMain => set_main (MainCall p) w
  | GWorker i => set_workers (<[i := p]> (workers w)) w
  end.

(** [app.checking.CompareAndSwap(old, new)] *)
Definition CompareAndSwap (old new : bool) (w : world) : bool * world :=
  if bool_decide (checking w = old) then (true, set_checking new w)
  else (false, w).

(** [triggerCheck], from its entry to the call of [check.Check] inside
    [checkProxies]. *)
Definition triggerCheck_enter (g : gid) (w : world) : world :=
  let '(swapped, w) := CompareAndSwap false true w in
  if negb swapped then
    set_pc g (Returned false) (emit_w [Log LWarn MsgCheckSkipped] w)
  else
    set_pc g InCheck
      (set_rounds (S (rounds w)) (emit_w [Log LInfo MsgPrepareCheck] w)).

(** [checkProxies], from the return of [check.Check] on. Saving the
    results, the notification, the subscription update and the callback
    belong to other packages and leave this state alone. *)
Definition checkProxies_rest (r : check_outcome) (w : world)
  : result unit * world :=
  match r with
  | CheckErr => (Err ErrCheck, w)
  | CheckOk successUrls failedUrls =>
      let w := emit_w [Log LInfo MsgCheckDone] w in
      let '(res, d, t) :=
        handleSubsLifecycle (SubUrlsFailRemove w) successUrls failedUrls (dsk w) in
      let w := emit_w t (set_dsk d w) in
      let w := match res with
               | Err e => emit_w [Log LError (MsgLifecycleFailed e)] w
               | Ok _ => w
               end in
      (Ok (), w)
  end.

(** [triggerCheck], from the return of [check.Check] on: the error branch
    leaves through [os.Exit(1)], which runs no deferred call; otherwise the
    next check time is logged ([setTimer] has installed the ticker or
    cron) and the deferred [checking.Store(false)] runs. *)
Definition triggerCheck_finish (g : gid) (r : check_outcome) (w : world) : world :=
  match checkProxies_rest r w with
  | (Err e, w) => os_Exit 1 (emit_w [Log LError (MsgCheckFailed e)] w)
  | (Ok _, w) =>
      set_pc g (Returned true)
        (set_checking false (emit_w [Log LInfo MsgNextCheck] w))
  end.

(** [TriggerCheck]: a [select] with a [default] branch on the unbuffered
    [app.checkChan]. The send goes through exactly when the receiver, the
    loop of [Run], is blocked on the channel. *)
Definition TriggerCheck (w : world) : world :=
  match main w with
  | MainRecv => set_main MainGo (emit_w [Log LInfo MsgManualTrigger] w)
  | _ => emit_w [Log LWarn MsgManualBusy] w
  end.

(** A new goroutine enters [triggerCheck]. *)
Definition spawn (w : world) : world := set_workers (workers w ++ [AtCas]) w.

Inductive action : Type :=
| ACas (g : gid)                       (* g executes the CompareAndSwap *)
| AFinish (g : gid) (r : check_outcome) (* check.Check returns in g *)
| AMainLoop                            (* Run leaves its first call for the loop *)
| AManual                              (* somebody calls app.TriggerCheck() *)
| AMainGo                              (* Run executes [go app.triggerCheck()] *)
| ATimer.                              (* the ticker or cron calls app.triggerCheck() *)

Definition step (a : action) (w : world) : world :=
  match exited w with
  | Some _ => w
  | None =>
      match a with
      | ACas g =>
          match pc_of w g with
          | Some AtCas => triggerCheck_enter g w
          | _ => w
          end
      | AFinish g r =>
          match pc_of w g with
          | Some InCheck => triggerCheck_finish g r w
          | _ => w
          end
      | AMainLoop =>
          match main w with
          | MainCall (Returned _) => set_main MainRecv w
          | _ => w
          end
      | AManual => TriggerCheck w
      | AMainGo =>
          match main w with
          | MainGo => spawn (set_main MainRecv w)
          | _ => w
          end
      | ATimer => spawn w
      end
  end.

Definition run (acts : list action) (w : world) : world :=
  foldl (λ w a, step a w) w acts.

(** [Run] after [setTimer]: with a cron expression the first round waits
    for the schedule, without one [Run] calls [triggerCheck] itself. *)
Definition start (cron : bool) (threshold : Z) (d : disk) : world :=
  {| checking := false;
     main := if cron then MainRecv else MainCall AtCas;
     workers := [];
     rounds := 0;
     SubUrlsFailRemove := threshold;
     dsk := d;
     trace := [];
     exited := None |}.

(** How many goroutines are at a control point selected by [f]. *)
Definition count_pc (f : tc_pc → bool) (w : world) : nat :=
  ((match main w with
    | MainCall p => if f p then 1 else 0
    | _ => 0
    end)
   + length (filter (λ p, f p = true) (workers w)))%nat.

(** The goroutines that are inside a round. *)
Definition in_check_pc (p : tc_pc) : bool :=
  match p with InCheck => true | _ => false end.

Definition in_check (w : world) : nat := count_pc in_check_pc w.

(** The goroutines that have entered [triggerCheck] and not yet reached
    the swap. *)
Definition at_cas_pc (p : tc_pc) : bool :=
  match p with AtCas => true | _ => false end.

Definition pending (w : world) : nat := count_pc at_cas_pc w.

Definition is_finish (a : action) : bool :=
  match a with AFinish _ _ => true | _ => false end.


Definition is_spawn (a : action) : bool :=
  match a with AMainGo | ATimer => true | _ => false end.

(** [n] calls of [TriggerCheck], each one accepted by the loop of [Run],
    which starts a goroutine for it and returns to the channel. *)
Definition burst (n : nat) : list action :=
  concat (replicate n [AManual; AMainGo]).

(** The workers [first], ..., [first + n - 1] run one round each, one
    after the other; every round succeeds and reports no statistics. *)
Definition one_by_one (first n : nat) : list action :=
  flat_map (λ i, [ACas (GWorker i); AFinish (GWorker i) (CheckOk [] [])])
           (seq first n).

(** The single-flight invariant: the flag is up exactly when one
    goroutine is inside a round, and no two ever are. *)
Definition guard_inv (w : world) : Prop :=
  in_check w = if checking w then 1%nat else 0%nat.


(** The entries of the source list that the filtering loop drops. *)
Definition is_removed (removeSet : gmap string bool) (v : any) : bool :=
  match v with
  | VString urlStr => default false (removeSet !! urlStr)
  | _ => false
  end.

(** [url] is a string entry of the configuration's source list. *)
Definition listed (d : disk) (url : string) : Prop :=
  ∃ yamlData subUrls,
    config_file d = Holds yamlData ∧
    yamlData !! sub_urls_key = Some (VSlice subUrls) ∧
    VString url ∈ subUrls.

(** The ledger of a round after its outcomes were recorded (step 3 of the
    lifecycle), for a state file that can be loaded. *)
Definition loaded_ledger (d : disk) : SubsState :=
  match LoadSubsState d with
  | (Ok s, _, _) => s
  | (Err _, _, _) => NewSubsState
  end.

Definition recorded (d : disk) (successUrls failedUrls : list string) : SubsState :=
  (update_each (update_each (loaded_ledger d) successUrls false).1 failedUrls true).1.

(** How many times [url] occurs in a list of sources. *)
Definition occurrences (url : string) (urls : list string) : nat :=
  length (filter (λ u, u = url) urls).

(** The calls of [os.WriteFile] in a trace. *)
Definition is_write (e : event) : bool :=
  match e with WriteFile _ => true | Log _ _ => false end.

Definition writes (t : list event) : nat :=
  length (filter (λ e, is_write e = true) t).

(** The disk after [n] rounds in each of which [url] is the only source
    reported, and it failed. *)
Fixpoint failing_rounds (threshold : Z) (url : string) (n : nat) (d : disk)
  : disk :=
  match n with
  | O => d
  | S n =>
      (handleSubsLifecycle threshold [] [url]
         (failing_rounds threshold url n d)).1.2
  end.

(** Does a round report statistics to the lifecycle manager? *)
Definition reports_stats (a : action) : bool :=
  match a with
  | AFinish _ (CheckOk [] []) => false
  | AFinish _ (CheckOk _ _) => true
  | _ => false
  end.


Definition is_main_loop (a : action) : bool :=
  match a with AMainLoop => true | _ => false end.

Definition is_timer (a : action) : bool :=
  match a with ATimer => true | _ => false end.

(** How many events of a trace [f] recognises. *)
Definition count_events (f : event → bool) (t : list event) : nat :=
  length (filter (λ e, f e = true) t).

(** ** The timers of [App]: [setTimer] and [useIntervalTimer]

    The tickers, the [done] channels and the cron schedulers the program
    creates live in three tables, in order of creation; the fields of
    [App] hold indices into them. [time.Duration] is an [int64] of
    nanoseconds. *)

Definition time_Minute : Z := 60 * 1000000000.

Inductive cron_status : Type :=
| CronNew        (* cron.New(), not started *)
| CronStarted    (* Start() was called *)
| CronStopped.   (* Stop() was called *)

#[global] Instance cron_status_eq_dec : EqDecision cron_status.
Proof. solve_decision. Defined.

Inductive timer_log : Type :=
| LogUseCron (expr : string)          (* 使用cron表达式: %s *)
| LogCronParseFailed (expr : string). (* cron表达式 '%s' 解析失败 ... 将使用检查间隔时间 *)

Inductive panic : Type :=
| PanicCloseOfClosedChannel   (* close of closed channel *)
| PanicNonPositiveInterval.   (* time.NewTicker: non-positive interval *)

Record App : Type := mkApp {
  app_interval : Z;                  (* app.interval, in minutes *)
  app_ticker : option nat;           (* app.ticker *)
  app_done : nat;                    (* app.done *)
  app_cron : option nat;             (* app.cron *)
  tickers : list (Z * bool);         (* period; true until Stop() *)
  chans : list bool;                 (* true once closed *)
  crons : list cron_status;
  (* the goroutines started by useIntervalTimer: the [done] each one
     captured *)
  loops : list nat;
  timer_trace : list timer_log
}.

(** The fields [New] and [Initialize] set. *)
Definition New (interval : Z) : App :=
  {| app_interval := interval; app_ticker := None; app_done := 0%nat;
     app_cron := None; tickers := []; chans := [false]; crons := [];
     loops := []; timer_trace := [] |}.

(** [time.NewTicker] panics unless the duration is positive. *)
Definition useIntervalTimer (a : App) : panic + App :=
  let d := GoInt.wrap (app_interval a * time_Minute) in
  if bool_decide (d ≤ 0) then inl PanicNonPositiveInterval
  else
    inr {| app_interval := app_interval a;
           app_ticker := Some (length (tickers a));
           app_done := app_done a;
           app_cron := app_cron a;
           tickers := tickers a ++ [(d, true)];
           chans := chans a;
           crons := crons a;
           loops := loops a ++ [app_done a];
           timer_trace := timer_trace a |}.

(** The first block of [setTimer]: stop the ticker, if there is one. *)
Definition stop_ticker (a : App) : panic + App :=
  match app_ticker a with
  | None => inr a
  | Some t =>
      match chans a !! app_done a with
      | Some false =>
          inr {| app_interval := app_interval a;
                 app_ticker := None;
                 app_done := length (chans a);
                 app_cron := app_cron a;
                 tickers := alter (λ tk, (tk.1, false)) t (tickers a);
                 chans := <[app_done a := true]> (chans a) ++ [false];
                 crons := crons a;
                 loops := loops a;
                 timer_trace := timer_trace a |}
      | _ => inl PanicCloseOfClosedChannel
      end
  end.

(** The second block: stop cron, if there is one. *)
Definition stop_cron (a : App) : App :=
  match app_cron a with
  | None => a
  | Some c =>
      {| app_interval := app_interval a;
         app_ticker := app_ticker a;
         app_done := app_done a;
         app_cron := None;
         tickers := tickers a;
         chans := chans a;
         crons := <[c := CronStopped]> (crons a);
         loops := loops a;
         timer_trace := timer_trace a |}
  end.

(** [cron.New()], assigned to [app.cron], and the log line. *)
Definition new_cron (expr : string) (a : App) : App :=
  {| app_interval := app_interval a;
     app_ticker := app_ticker a;
     app_done := app_done a;
     app_cron := Some (length (crons a));
     tickers := tickers a;
     chans := chans a;
     crons := crons a ++ [CronNew];
     loops := loops a;
     timer_trace := timer_trace a ++ [LogUseCron expr] |}.

Definition cron_Start (a : App) : App :=
  match app_cron a with
  | None => a
  | Some c =>
      {| app_interval := app_interval a;
         app_ticker := app_ticker a;
         app_done := app_done a;
         app_cron := app_cron a;
         tickers := tickers a;
         chans := chans a;
         crons := <[c := CronStarted]> (crons a);
         loops := loops a;
         timer_trace := timer_trace a |}
  end.

Definition log_parse_failed (expr : string) (a : App) : App :=
  {| app_interval := app_interval a;
     app_ticker := app_ticker a;
     app_done := app_done a;
     app_cron := app_cron a;
     tickers := tickers a;
     chans := chans a;
     crons := crons a;
     loops := loops a;
     timer_trace := timer_trace a ++ [LogCronParseFailed expr] |}.

(** [setTimer]. [expr] is [config.GlobalConfig.CronExpression];
    [parses expr] tells whether [cron.AddFunc] accepts it. *)
Definition setTimer (parses : string → bool) (expr : string) (a : App)
  : panic + App :=
  match stop_ticker a with
  | inl p => inl p
  | inr a =>
      let a := stop_cron a in
      if bool_decide (expr ≠ ""%string) then
        let a := new_cron expr a in
        if parses expr then inr (cron_Start a)
        else useIntervalTimer (log_parse_failed expr a)
      else useIntervalTimer a
  end.

(** [setTimer] at start-up and after every reload of the configuration,
    in order; each reload may change the expression and the interval. *)
Definition with_interval (interval : Z) (a : App) : App :=
  {| app_interval := interval; app_ticker := app_ticker a;
     app_done := app_done a; app_cron := app_cron a;
     tickers := tickers a; chans := chans a; crons := crons a;
     loops := loops a; timer_trace := timer_trace a |}.

Fixpoint reloads (parses : string → bool) (configs : list (string * Z)) (a : App)
  : panic + App :=
  match configs with
  | [] => inr a
  | (expr, interval) :: rest =>
      match setTimer parses expr (with_interval interval a) with
      | inl p => inl p
      | inr a' => reloads parses rest a'
      end
  end.

(** A ticker that still ticks, a ticker goroutine that was not told to
    stop, a cron scheduler that runs. *)
Definition ticks (a : App) (i : nat) : Prop :=
  ∃ period, tickers a !! i = Some (period, true).

Definition listens (a : App) (k : nat) : Prop :=
  ∃ c, loops a !! k = Some c ∧ chans a !! c = Some false.

Definition cron_runs (a : App) (i : nat) : Prop :=
  crons a !! i = Some CronStarted.

(** What [setTimer] keeps true of the timers. *)
Record timers_ok (a : App) : Prop := {
  done_open : chans a !! app_done a = Some false;
  loops_known : ∀ k c, loops a !! k = Some c → (c < length (chans a))%nat;
  loops_current : ∀ k, listens a k →
                       loops a !! k = Some (app_done a) ∧ is_Some (app_ticker a);
  loops_unique : ∀ k1 k2, listens a k1 → listens a k2 → k1 = k2;
  loops_live : is_Some (app_ticker a) → ∃ k, listens a k;
  ticker_current : ∀ i, ticks a i → app_ticker a = Some i;
  ticker_ticks : ∀ t, app_ticker a = Some t → ticks a t;
  cron_current : ∀ i, cron_runs a i → app_cron a = Some i;
  cron_known : ∀ c, app_cron a = Some c → (c < length (crons a))%nat;
  one_mode : is_Some (app_ticker a) → ∀ i, ¬ cron_runs a i
}.

(** Nothing is active: no ticker, no ticker goroutine listening, no cron
    started. *)
Definition idle (a : App) : Prop :=
  timers_ok a ∧ app_ticker a = None ∧ ∀ i, ¬ cron_runs a i.

(** The log records that [triggerCheck] and [checkProxies] write
    themselves. *)
Definition is_prepare_log (e : event) : bool :=
  match e with Log LInfo MsgPrepareCheck => true | _ => false end.

Definition is_next_log (e : event) : bool :=
  match e with Log LInfo MsgNextCheck => true | _ => false end.

Definition is_skip_log (e : event) : bool :=
  match e with Log LWarn MsgCheckSkipped => true | _ => false end.

Definition is_scheduler_log (e : event) : bool :=
  is_prepare_log e || is_next_log e || is_skip_log e.

(** The goroutines that entered [triggerCheck] so far: [Run] itself when
    there is no cron expression, and every goroutine started since. *)
Definition entered (cron : bool) (w : world) : nat :=
  ((if cron then 0 else 1) + length (workers w))%nat.

(** A trace without records of the scheduler, as the lifecycle manager
    produces them. *)
Definition lifecycle_events (t : list event) : Prop :=
  Forall (λ e, is_scheduler_log e = false) t.

(** Every goroutine that entered [triggerCheck] is accounted for, and so
    is every round. *)
Definition accounted (cron : bool) (w : world) : Prop :=
  count_events is_prepare_log (trace w) = rounds w ∧
  rounds w = (in_check w + count_events is_next_log (trace w))%nat ∧
  entered cron w
  = (pending w + rounds w + count_events is_skip_log (trace w))%nat.

(** * Properties *)

(** ** Go's [int] *)

Lemma wrap_in_range (z : Z) : GoInt.in_range z → GoInt.wrap z = z.
Proof.
  unfold GoInt.in_range, GoInt.wrap, GoInt.min_int, GoInt.max_int, GoInt.int_size.
  intros H. rewrite Z.mod_small; lia.
Qed.

Lemma wrap_max_int_succ : GoInt.wrap (GoInt.max_int + 1) = GoInt.min_int.
Proof. reflexivity. Qed.

(** ** The ledger *)

#[local] Ltac unfold_ledger :=
  unfold UpdateFailCount, GetFailCount, NewSubsState in *; simpl in *.

Lemma GetFailCount_update_same (s : SubsState) (url : string) (failed : bool) :
  GetFailCount (UpdateFailCount s url failed).1 url =
    if failed then GoInt.wrap (GetFailCount s url + 1) else 0.
Proof. unfold_ledger. destruct failed; simpl; by rewrite lookup_insert_eq. Qed.

Lemma FailCounts_update_other (s : SubsState) (url other : string) (failed : bool) :
  other ≠ url →
  FailCounts (UpdateFailCount s url failed).1 !! other = FailCounts s !! other.
Proof. intros Hne. unfold_ledger. destruct failed; simpl; by rewrite lookup_insert_ne. Qed.

(** C4, as the specification states it, fails at the largest [int]: a
    ledger file may hold the count 9223372036854775807, and one more
    failure wraps it to the smallest [int]. *)
Lemma UpdateFailCount_wraps_at_max_int :
  let s := {| FailCounts := {[ "A"%string := GoInt.max_int ]} |} in
  GetFailCount (UpdateFailCount s "A" true).1 "A" = GoInt.min_int ∧
  GetFailCount (UpdateFailCount s "A" true).1 "A" ≠ GetFailCount s "A" + 1.
Proof.
  intros s. rewrite GetFailCount_update_same.
  assert (GetFailCount s "A" = GoInt.max_int) as -> by reflexivity.
  rewrite wrap_max_int_succ. split; [reflexivity | discriminate].
Qed.

(** C4 (amended): for every ledger and every source, a failed outcome
    increments the source's count by exactly 1 provided the count is below
    the largest [int]; a successful outcome sets it to exactly 0 and logs
    the recovery at debug level exactly when the count was positive; no
    other entry changes; and [fail, fail, success, fail] from the empty
    ledger leaves the count 1. *)
Theorem UpdateFailCount_increment_reset (s : SubsState) (url : string) :
  (GoInt.min_int ≤ GetFailCount s url < GoInt.max_int →
     GetFailCount (UpdateFailCount s url true).1 url = GetFailCount s url + 1) ∧
  GetFailCount (UpdateFailCount s url false).1 url = 0 ∧
  (UpdateFailCount s url false).2 =
    (if bool_decide (0 < GetFailCount s url)
     then [Log LDebug (MsgFailCountCleared url)] else []) ∧
  (∀ other failed, other ≠ url →
     FailCounts (UpdateFailCount s url failed).1 !! other = FailCounts s !! other) ∧
  GetFailCount (record_all NewSubsState url [true; true; false; true]) url = 1.
Proof.
  split; [|split; [|split; [|split]]].
  - intros Hroom. rewrite GetFailCount_update_same.
    apply wrap_in_range. unfold GoInt.in_range. lia.
  - apply GetFailCount_update_same.
  - reflexivity.
  - intros other failed Hne. by apply FailCounts_update_other.
  - unfold record_all. cbn [foldl fold_left].
    rewrite (GetFailCount_update_same _ url true).
    rewrite (GetFailCount_update_same _ url false).
    reflexivity.
Qed.

Lemma UpdateFailCount_increment_reset_witness :
  let s := {| FailCounts := {[ "A"%string := 2 ]} |} in
  GetFailCount (UpdateFailCount s "A" true).1 "A" = GetFailCount s "A" + 1.
Proof.
  intros s. apply (proj1 (UpdateFailCount_increment_reset s "A")).
  vm_compute. split; [discriminate | reflexivity].
Defined.

(** The loop of [GetFailedUrls], for any accumulator. *)
Lemma GetFailedUrls_loop (threshold : Z) (l : list (string * Z)) (acc : list string) :
  foldl (λ failedUrls '(url, count),
           if bool_decide (threshold ≤ count) then failedUrls ++ [url]
           else failedUrls) acc l
  = acc ++ (filter (λ kv, threshold ≤ kv.2) l).*1.
Proof.
  revert acc. induction l as [|[url count] l IH]; intros acc; simpl.
  - by rewrite app_nil_r.
  - rewrite IH. rewrite filter_cons. simpl.
    case_bool_decide; case_decide; try lia; simpl.
    + by rewrite <- app_assoc.
    + done.
Qed.

Lemma GetFailedUrls_unfold (s : SubsState) (threshold : Z) :
  0 < threshold →
  GetFailedUrls s threshold =
    (filter (λ kv, threshold ≤ kv.2) (map_to_list (FailCounts s))).*1.
Proof.
  intros Hpos. unfold GetFailedUrls.
  rewrite bool_decide_eq_false_2 by lia.
  by rewrite GetFailedUrls_loop.
Qed.

Lemma elem_of_GetFailedUrls (s : SubsState) (threshold : Z) (url : string) :
  url ∈ GetFailedUrls s threshold ↔
  0 < threshold ∧ ∃ count, FailCounts s !! url = Some count ∧ threshold ≤ count.
Proof.
  destruct (decide (0 < threshold)) as [Hpos|Hneg].
  - rewrite GetFailedUrls_unfold by done. rewrite list_elem_of_fmap. split.
    + intros ([u c] & -> & Hin). apply list_elem_of_filter in Hin as [Hc Hin].
      apply elem_of_map_to_list in Hin. eauto.
    + intros (_ & c & Hl & Hc). exists (url, c). split; [done|].
      apply list_elem_of_filter. split; [done|]. by apply elem_of_map_to_list.
  - unfold GetFailedUrls. rewrite bool_decide_eq_true_2 by lia.
    split; [by intros ?%elem_of_nil | intros [? _]; lia].
Qed.

Lemma NoDup_GetFailedUrls (s : SubsState) (threshold : Z) :
  NoDup (GetFailedUrls s threshold).
Proof.
  destruct (decide (0 < threshold)) as [Hpos|Hneg].
  - rewrite GetFailedUrls_unfold by done.
    eapply sublist_NoDup; [apply (NoDup_fst_map_to_list (FailCounts s))|].
    apply fmap_sublist, sublist_filter.
  - unfold GetFailedUrls. rewrite bool_decide_eq_true_2 by lia. constructor.
Qed.

(** C5: with a positive threshold [GetFailedUrls] returns exactly the
    sources whose recorded count is at least the threshold, each once;
    with a threshold of 0 or below it returns nothing, whatever the
    counts. *)
Theorem GetFailedUrls_spec (s : SubsState) (threshold : Z) :
  (0 < threshold →
     ∀ url, url ∈ GetFailedUrls s threshold ↔
            ∃ count, FailCounts s !! url = Some count ∧ threshold ≤ count) ∧
  (threshold ≤ 0 → GetFailedUrls s threshold = []) ∧
  NoDup (GetFailedUrls s threshold).
Proof.
  split; [|split].
  - intros Hpos url. rewrite elem_of_GetFailedUrls.
    split; [intros [_ H]; exact H | intros H; by split].
  - intros Hle. unfold GetFailedUrls. by rewrite bool_decide_eq_true_2.
  - apply NoDup_GetFailedUrls.
Qed.

Lemma GetFailedUrls_spec_witness :
  let s := {| FailCounts := {[ "A"%string := 3 ]} |} in
  ("A"%string ∈ GetFailedUrls s 3 ↔
     ∃ count, FailCounts s !! "A"%string = Some count ∧ 3 ≤ count) ∧
  GetFailedUrls s 0 = [].
Proof.
  intros s. split.
  - apply (proj1 (GetFailedUrls_spec s 3)). lia.
  - apply (proj1 (proj2 (GetFailedUrls_spec s 0))). lia.
Defined.





Lemma FailCounts_CleanupUrls (s : SubsState) (urls : list string) (url : string) :
  FailCounts (CleanupUrls s urls).1 !! url =
    if bool_decide (url ∈ urls) then None else FailCounts s !! url.
Proof.
  revert s. induction urls as [|u urls IH]; intros s; cbn [CleanupUrls].
  - case_bool_decide as H; [by apply elem_of_nil in H | done].
  - specialize (IH {| FailCounts := delete u (FailCounts s) |}).
    destruct (CleanupUrls _ urls) as [s2 t] eqn:E. cbn [fst FailCounts] in *.
    rewrite IH. destruct (decide (url = u)) as [->|Hne].
    + rewrite lookup_delete_eq.
      rewrite (bool_decide_eq_true_2 (u ∈ u :: urls)) by left.
      by case_bool_decide.
    + rewrite lookup_delete_ne by done.
      case_bool_decide as H1; case_bool_decide as H2; try done.
      * exfalso. apply H2. by right.
      * exfalso. apply elem_of_cons in H2 as [?|?]; done.
Qed.





(** C7: for an absent state file [LoadSubsState] returns the empty ledger
    and no error; for an unparsable one it logs a warning and returns the
    empty ledger and no error; the only error it ever returns is the read
    error. *)
Theorem LoadSubsState_absent_or_corrupt (d : disk) :
  (state_file d = Missing →
     LoadSubsState d = (Ok NewSubsState, d, [Log LDebug MsgStateFileMissing])) ∧
  (state_file d = Garbled →
     LoadSubsState d = (Ok NewSubsState, d, [Log LWarn MsgStateParseFailed])) ∧
  (∀ e, (LoadSubsState d).1.1 = Err e →
     e = ErrReadState ∧ state_file d = Unreadable).
Proof.
  unfold LoadSubsState. split; [|split].
  - by intros ->.
  - by intros ->.
  - intros e. destruct (state_file d) as [| | |[counts|]]; simpl; try discriminate.
    by intros [= <-].
Qed.

Lemma LoadSubsState_absent_or_corrupt_witness :
  let d := {| config_file := Missing; config_writable := true;
              state_file := Garbled; state_writable := true |} in
  LoadSubsState d = (Ok NewSubsState, d, [Log LWarn MsgStateParseFailed]).
Proof.
  intros d. apply (proj1 (proj2 (LoadSubsState_absent_or_corrupt d))).
  reflexivity.
Defined.

(** C10: when the state file exists and cannot be read, [LoadSubsState]
    returns an error and no ledger, and a round's lifecycle processing
    that reaches the load returns that error, wrapped, having logged no
    count update and written nothing. *)
Theorem LoadSubsState_read_error (d : disk) (threshold : Z)
    (successUrls failedUrls : list string)
    (Hunreadable : state_file d = Unreadable)
    (Henabled : 0 < threshold)
    (Hstats : successUrls ≠ [] ∨ failedUrls ≠ []) :
  LoadSubsState d = (Err ErrReadState, d, []) ∧
  handleSubsLifecycle threshold successUrls failedUrls d
    = (Err (ErrLoadState ErrReadState), d, []).
Proof.
  assert (LoadSubsState d = (Err ErrReadState, d, [])) as Hload.
  { unfold LoadSubsState. by rewrite Hunreadable. }
  split; [done|].
  unfold handleSubsLifecycle.
  rewrite bool_decide_eq_false_2 by lia.
  rewrite bool_decide_eq_false_2.
  - unfold mbind, M_bind, wrap_err. by rewrite Hload.
  - intros [H1 H2]. apply length_zero_iff_nil in H1, H2.
    by destruct Hstats as [H|H]; apply H.
Qed.

Lemma LoadSubsState_read_error_witness :
  let d := {| config_file := Holds ∅; config_writable := true;
              state_file := Unreadable; state_writable := true |} in
  handleSubsLifecycle 3 [] ["x"%string] d
    = (Err (ErrLoadState ErrReadState), d, []).
Proof.
  intros d.
  apply (proj2 (LoadSubsState_read_error d 3 [] ["x"%string]
                  eq_refl ltac:(lia) ltac:(right; discriminate))).
Defined.

(** ** The source-list editor *)

Lemma make_removeSet_loop (urls : list string) (acc : gmap string bool) (u : string) :
  foldl (λ removeSet url, <[url := true]> removeSet) acc urls !! u =
    if bool_decide (u ∈ urls) then Some true else acc !! u.
Proof.
  revert acc. induction urls as [|x urls IH]; intros acc; cbn [foldl fold_left].
  - case_bool_decide as H; [by apply elem_of_nil in H | done].
  - rewrite IH. case_bool_decide as H1; case_bool_decide as H2; try done.
    + exfalso. apply H2. by right.
    + apply elem_of_cons in H2 as [->|?]; [|done]. by rewrite lookup_insert_eq.
    + rewrite lookup_insert_ne; [done|]. intros ->. apply H2. left.
Qed.

Lemma make_removeSet_lookup (urls : list string) (u : string) :
  default false (make_removeSet urls !! u) = bool_decide (u ∈ urls).
Proof.
  unfold make_removeSet. rewrite make_removeSet_loop, lookup_empty.
  by case_bool_decide.
Qed.

Lemma filter_loop_spec (removeSet : gmap string bool) (subUrls acc : list any) (n : nat) :
  filter_loop removeSet subUrls acc n =
    (acc ++ filter (λ v, is_removed removeSet v = false) subUrls,
     (n + length (filter (λ v, is_removed removeSet v = true) subUrls))%nat).
Proof.
  revert acc n. induction subUrls as [|v l IH]; intros acc n; cbn [filter_loop].
  - by rewrite app_nil_r, Nat.add_0_r.
  - rewrite !filter_cons.
    destruct v as [| | |str| |]; cbn [is_removed];
      try (rewrite IH; repeat case_decide; try done;
           by rewrite <- app_assoc).
    destruct (default false (removeSet !! str)) eqn:E; cbn [negb]; rewrite IH;
      repeat case_decide; try done.
    + f_equal. cbn [length]. lia.
    + by rewrite <- app_assoc.
Qed.

Lemma filter_loop_none_removed (removeSet : gmap string bool) (subUrls : list any) :
  (∀ v, v ∈ subUrls → is_removed removeSet v = false) →
  filter_loop removeSet subUrls [] 0 = (subUrls, 0%nat).
Proof.
  intros Hnone. rewrite filter_loop_spec. cbn [app]. f_equal.
  - induction subUrls as [|v l IH]; [done|].
    rewrite filter_cons. rewrite decide_True by (apply Hnone; left).
    f_equal. apply IH. intros w Hw. apply Hnone. by right.
  - induction subUrls as [|v l IH]; [done|].
    rewrite filter_cons. rewrite decide_False.
    + apply IH. intros w Hw. apply Hnone. by right.
    + rewrite Hnone by left. discriminate.
Qed.

Lemma removeUrlsFromConfig_unlisted (urlsToRemove : list string) (d : disk) :
  (∀ url, url ∈ urlsToRemove → ¬ listed d url) →
  (removeUrlsFromConfig urlsToRemove d).1.2 = d ∧
  (removeUrlsFromConfig urlsToRemove d).2 = [] .
Proof.
  intros Hnone. unfold removeUrlsFromConfig.
  destruct (config_file d) as [| | |yamlData] eqn:Ec; try done.
  destruct (yamlData !! sub_urls_key) as [[| | | |subUrls|]|] eqn:Ek; try done.
  rewrite filter_loop_none_removed; [done|].
  intros v Hv. destruct v as [| | |str| |]; try done. cbn [is_removed].
  rewrite make_removeSet_lookup. apply bool_decide_eq_false_2.
  intros Hin. apply (Hnone str Hin). by exists yamlData, subUrls.
Qed.

Lemma removeUrlsFromConfig_again (urlsToRemove : list string) (d : disk) :
  let first := removeUrlsFromConfig urlsToRemove d in
  (removeUrlsFromConfig urlsToRemove first.1.2).1.2 = first.1.2 ∧
  (first.1.1 = Ok () →
   removeUrlsFromConfig urlsToRemove first.1.2 = (Ok (), first.1.2, [])).
Proof.
  cbn zeta.
  destruct (removeUrlsFromConfig urlsToRemove d) as [[r1 d1] t1] eqn:E1.
  cbn [fst snd]. unfold removeUrlsFromConfig in E1.
  destruct (config_file d) as [| | |yamlData] eqn:Ec;
    try (simplify_eq; unfold removeUrlsFromConfig; rewrite Ec; done).
  destruct (yamlData !! sub_urls_key) as [v|] eqn:Ek;
    [|simplify_eq; unfold removeUrlsFromConfig; rewrite Ec, Ek; done].
  destruct v as [| | | |subUrls|];
    try (simplify_eq; unfold removeUrlsFromConfig; rewrite Ec, Ek; done).
  rewrite filter_loop_spec in E1. cbn [app Nat.add] in E1.
  case_bool_decide as Hzero.
  { simplify_eq. unfold removeUrlsFromConfig.
    rewrite Ec, Ek, filter_loop_spec. cbn [app Nat.add].
    by rewrite bool_decide_eq_true_2. }
  destruct (config_writable d) eqn:Ew; simplify_eq.
  - assert (∀ l, l = filter (λ v, is_removed (make_removeSet urlsToRemove) v = false)
                        subUrls →
            removeUrlsFromConfig urlsToRemove
              (set_config_file d (Holds (<[sub_urls_key := VSlice l]> yamlData)))
            = (Ok (), set_config_file d
                        (Holds (<[sub_urls_key := VSlice l]> yamlData)), []))
      as Hagain.
    { intros l ->. unfold removeUrlsFromConfig. cbn [config_file set_config_file].
      rewrite lookup_insert_eq. rewrite filter_loop_none_removed; [done|].
      intros v Hv. by apply list_elem_of_filter in Hv as [? _]. }
    by rewrite Hagain.
  - split; [|done]. unfold removeUrlsFromConfig.
    rewrite Ec, Ek, filter_loop_spec. cbn [app Nat.add].
    rewrite bool_decide_eq_false_2 by done. by rewrite Ew.
Qed.

(** C8: when no entry of the source list matches the removal set,
    [removeUrlsFromConfig] writes nothing and the disk is what it was; and
    for any removal set a second call with the same set leaves the disk
    exactly as the first call left it, and after a first call that
    succeeded it returns without writing or logging anything. *)
Theorem removeUrlsFromConfig_no_match_and_idempotent
    (urlsToRemove : list string) (d : disk) :
  ((∀ url, url ∈ urlsToRemove → ¬ listed d url) →
     (removeUrlsFromConfig urlsToRemove d).1.2 = d ∧
     (removeUrlsFromConfig urlsToRemove d).2 = []) ∧
  (let first := removeUrlsFromConfig urlsToRemove d in
   (removeUrlsFromConfig urlsToRemove first.1.2).1.2 = first.1.2 ∧
   (first.1.1 = Ok () →
    removeUrlsFromConfig urlsToRemove first.1.2 = (Ok (), first.1.2, []))).
Proof.
  split.
  - apply removeUrlsFromConfig_unlisted.
  - apply removeUrlsFromConfig_again.
Qed.

Lemma removeUrlsFromConfig_no_match_and_idempotent_witness :
  let d := {| config_file :=
                Holds {[ sub_urls_key := VSlice [VString "a"; VInt 1] ]};
              config_writable := true;
              state_file := Missing; state_writable := true |} in
  ((removeUrlsFromConfig ["b"%string] d).1.2 = d ∧
   (removeUrlsFromConfig ["b"%string] d).2 = []) ∧
  removeUrlsFromConfig ["a"%string] (removeUrlsFromConfig ["a"%string] d).1.2
    = (Ok (), (removeUrlsFromConfig ["a"%string] d).1.2, []).
Proof.
  intros d. split.
  - apply (proj1 (removeUrlsFromConfig_no_match_and_idempotent ["b"%string] d)).
    intros url Hin (yamlData & subUrls & Hc & Hk & Hl).
    apply list_elem_of_singleton in Hin as ->.
    injection Hc as <-. rewrite lookup_singleton_eq in Hk. injection Hk as <-.
    apply elem_of_cons in Hl as [Hl|Hl]; [discriminate|].
    apply list_elem_of_singleton in Hl. discriminate.
  - apply (proj2 (proj2 (removeUrlsFromConfig_no_match_and_idempotent
                           ["a"%string] d))).
    reflexivity.
Defined.

(** ** The lifecycle manager *)

Definition writes_state (t : list event) : Prop := WriteFile StatePath ∈ t.

Lemma update_each_logs_only (s : SubsState) (urls : list string) (failed : bool) :
  ¬ writes_state (update_each s urls failed).2.
Proof.
  unfold writes_state. revert s.
  induction urls as [|u urls IH]; intros s; cbn [update_each].
  - apply not_elem_of_nil.
  - destruct (UpdateFailCount s u failed) as [s1 t1] eqn:E1.
    specialize (IH s1). destruct (update_each s1 urls failed) as [s2 t2].
    cbn [snd] in *. rewrite elem_of_app. intros [H|H]; [|done].
    unfold UpdateFailCount in E1. destruct failed; simplify_eq.
    + apply list_elem_of_singleton in H. discriminate.
    + case_bool_decide; [apply list_elem_of_singleton in H; discriminate
                        | by apply elem_of_nil in H].
Qed.

Lemma LoadSubsState_logs_only (d : disk) :
  (LoadSubsState d).1.2 = d ∧ ¬ writes_state (LoadSubsState d).2.
Proof.
  unfold LoadSubsState, writes_state.
  destruct (state_file d) as [| | |[counts|]]; cbn [fst snd]; split; try done;
    try apply not_elem_of_nil;
    intros H; apply list_elem_of_singleton in H; discriminate.
Qed.

Lemma removeUrlsFromConfig_keeps_state (urls : list string) (d : disk) :
  state_file (removeUrlsFromConfig urls d).1.2 = state_file d ∧
  state_writable (removeUrlsFromConfig urls d).1.2 = state_writable d ∧
  ¬ writes_state (removeUrlsFromConfig urls d).2 ∧
  (is_err (removeUrlsFromConfig urls d).1.1 = true →
   (removeUrlsFromConfig urls d).1.2 = d).
Proof.
  unfold removeUrlsFromConfig, writes_state.
  destruct (config_file d) as [| | |yamlData]; cbn [fst snd];
    try (split_and!; [done|done|apply not_elem_of_nil|done]).
  destruct (yamlData !! sub_urls_key) as [[| | | |subUrls|]|]; cbn [fst snd];
    try (split_and!; [done|done|apply not_elem_of_nil|done]).
  destruct (filter_loop _ _ _ _) as [filteredUrls removedCount].
  case_bool_decide; cbn [fst snd];
    [split_and!; [done|done|apply not_elem_of_nil|done]|].
  destruct (config_writable d); cbn [fst snd]; split_and!; try done.
  - intros Hin. apply elem_of_cons in Hin as [Hin|Hin]; [discriminate|].
    apply list_elem_of_singleton in Hin. discriminate.
  - intros Hin. apply list_elem_of_singleton in Hin. discriminate.
Qed.

Lemma CleanupUrls_logs_only (s : SubsState) (urls : list string) :
  ¬ writes_state (CleanupUrls s urls).2.
Proof.
  unfold writes_state. revert s.
  induction urls as [|u urls IH]; intros s; cbn [CleanupUrls].
  - apply not_elem_of_nil.
  - specialize (IH {| FailCounts := delete u (FailCounts s) |}).
    destruct (CleanupUrls _ urls) as [s2 t]. cbn [snd] in *.
    intros H. apply elem_of_cons in H as [H|H]; [discriminate | done].
Qed.


Lemma LoadSubsState_readable (d : disk) :
  state_file d ≠ Unreadable →
  ∃ t0, LoadSubsState d = (Ok (loaded_ledger d), d, t0) ∧ ¬ writes_state t0.
Proof.
  intros Hr. pose proof (LoadSubsState_logs_only d) as [Hd Ht].
  unfold loaded_ledger.
  destruct (LoadSubsState d) as [[[s|e] d0] t0] eqn:E; cbn [fst snd] in *.
  - exists t0. by subst.
  - exfalso. apply Hr. unfold LoadSubsState in E.
    by destruct (state_file d) as [| | |[counts|]].
Qed.




(** ** The scheduler *)

#[local] Ltac wsimpl :=
  unfold set_pc, spawn, set_checking, set_main, set_workers, set_rounds,
         set_dsk, emit_w, os_Exit in *;
  cbn [checking main workers rounds SubUrlsFailRemove dsk trace exited
       fst snd] in *.

Lemma count_insert (f : tc_pc → bool) (l : list tc_pc) (i : nat) (old p : tc_pc) :
  l !! i = Some old →
  (length (filter (λ x, f x = true) (<[i := p]> l)) + (if f old then 1 else 0)
   = length (filter (λ x, f x = true) l) + (if f p then 1 else 0))%nat.
Proof.
  revert i. induction l as [|x l IH]; intros [|i] Hl; try done; simpl in Hl.
  - injection Hl as ->. cbn [insert list_insert]. rewrite !filter_cons.
    destruct (f old), (f p); repeat case_decide; try done; cbn [length]; lia.
  - specialize (IH i Hl). change (<[S i := p]> (x :: l)) with (x :: <[i := p]> l).
    rewrite !filter_cons. case_decide; cbn [length]; lia.
Qed.

Lemma count_pc_set_pc (f : tc_pc → bool) (g : gid) (old p : tc_pc) (w : world) :
  pc_of w g = Some old →
  (count_pc f (set_pc g p w) + (if f old then 1 else 0)
   = count_pc f w + (if f p then 1 else 0))%nat.
Proof.
  unfold count_pc. destruct g as [|i]; cbn [pc_of]; wsimpl.
  - destruct (main w); try done. intros [= ->]. lia.
  - intros Hl. pose proof (count_insert f _ _ _ p Hl). lia.
Qed.

Lemma count_pc_spawn (f : tc_pc → bool) (w : world) :
  count_pc f (spawn w) = (count_pc f w + (if f AtCas then 1 else 0))%nat.
Proof.
  unfold count_pc. wsimpl. rewrite filter_app, length_app, filter_cons.
  rewrite filter_nil. destruct (f AtCas); case_decide; try done; cbn [length]; lia.
Qed.

Lemma pc_of_set_pc_same (g : gid) (old p : tc_pc) (w : world) :
  pc_of w g = Some old → pc_of (set_pc g p w) g = Some p.
Proof.
  destruct g as [|i]; cbn [pc_of]; wsimpl; [done|].
  intros Hl. apply list_lookup_insert_eq. by eapply lookup_lt_Some.
Qed.

Lemma pc_of_set_pc_other (g g' : gid) (old p : tc_pc) (w : world) :
  pc_of w g = Some old → g ≠ g' → pc_of (set_pc g p w) g' = pc_of w g'.
Proof.
  destruct g as [|i], g' as [|j]; cbn [pc_of]; wsimpl; try done.
  intros _ Hne. apply list_lookup_insert_ne. congruence.
Qed.

Lemma triggerCheck_enter_busy (g : gid) (w : world) :
  checking w = true →
  triggerCheck_enter g w
  = set_pc g (Returned false) (emit_w [Log LWarn MsgCheckSkipped] w).
Proof.
  intros Hc. unfold triggerCheck_enter, CompareAndSwap.
  by rewrite Hc, bool_decide_eq_false_2.
Qed.

Lemma triggerCheck_enter_free (g : gid) (w : world) :
  checking w = false →
  triggerCheck_enter g w
  = set_pc g InCheck
      (set_rounds (S (rounds w))
         (emit_w [Log LInfo MsgPrepareCheck] (set_checking true w))).
Proof.
  intros Hc. unfold triggerCheck_enter, CompareAndSwap.
  by rewrite Hc, bool_decide_eq_true_2.
Qed.

(** What the rest of a successful round may touch: the disk and the log. *)
Lemma checkProxies_rest_ok (successUrls failedUrls : list string) (w : world) :
  ∃ d t, checkProxies_rest (CheckOk successUrls failedUrls) w
         = (Ok (), emit_w t (set_dsk d w)).
Proof.
  unfold checkProxies_rest.
  destruct (handleSubsLifecycle _ _ _ _) as [[[[]|e] d] t] eqn:E.
  - exists d, ([Log LInfo MsgCheckDone] ++ t). wsimpl.
    by rewrite <- app_assoc.
  - exists d, ([Log LInfo MsgCheckDone] ++ t ++ [Log LError (MsgLifecycleFailed e)]).
    wsimpl. by rewrite <- !app_assoc.
Qed.

Lemma triggerCheck_finish_ok (g : gid) (successUrls failedUrls : list string)
    (w : world) :
  ∃ d t, triggerCheck_finish g (CheckOk successUrls failedUrls) w
         = set_pc g (Returned true)
             (set_checking false (emit_w t (set_dsk d w))).
Proof.
  unfold triggerCheck_finish.
  destruct (checkProxies_rest_ok successUrls failedUrls w) as (d & t & ->).
  exists d, (t ++ [Log LInfo MsgNextCheck]). wsimpl.
  by rewrite <- app_assoc.
Qed.

Lemma triggerCheck_finish_err (g : gid) (w : world) :
  triggerCheck_finish g CheckErr w
  = os_Exit 1 (emit_w [Log LError (MsgCheckFailed ErrCheck)] w).
Proof. reflexivity. Qed.



Lemma run_cons (a : action) (acts : list action) (w : world) :
  run (a :: acts) w = run acts (step a w).
Proof. reflexivity. Qed.

Lemma step_guard_inv (a : action) (w : world) :
  guard_inv w → guard_inv (step a w).
Proof.
  unfold guard_inv, in_check. intros Hinv. unfold step.
  destruct (exited w); [done|].
  destruct a as [g|g r| | | |].
  - destruct (pc_of w g) as [[| |]|] eqn:Hpc; try done.
    destruct (checking w) eqn:Hc.
    + rewrite triggerCheck_enter_busy by done.
      pose proof (count_pc_set_pc in_check_pc g AtCas (Returned false)
                    (emit_w [Log LWarn MsgCheckSkipped] w) Hpc) as Hcount.
      cbn [in_check_pc] in Hcount.
      destruct g; wsimpl; rewrite Hc; unfold count_pc in *; wsimpl; lia.
    + rewrite triggerCheck_enter_free by done.
      pose proof (count_pc_set_pc in_check_pc g AtCas InCheck
                    (set_rounds (S (rounds w))
                       (emit_w [Log LInfo MsgPrepareCheck] (set_checking true w)))
                    Hpc) as Hcount.
      cbn [in_check_pc] in Hcount.
      destruct g; wsimpl; unfold count_pc in *; wsimpl; lia.
  - destruct (pc_of w g) as [[| |]|] eqn:Hpc; try done.
    destruct r as [|successUrls failedUrls].
    + rewrite triggerCheck_finish_err. unfold count_pc in *. by wsimpl.
    + destruct (triggerCheck_finish_ok g successUrls failedUrls w) as (d & t & ->).
      pose proof (count_pc_set_pc in_check_pc g InCheck (Returned true)
                    (set_checking false (emit_w t (set_dsk d w))) Hpc) as Hcount.
      cbn [in_check_pc] in Hcount.
      assert (count_pc in_check_pc w ≥ 1)%nat as Hge.
      { pose proof (count_pc_set_pc in_check_pc g InCheck (Returned true) w Hpc) as H.
        cbn [in_check_pc] in H. lia. }
      destruct (checking w); [|lia].
      destruct g; wsimpl; unfold count_pc in *; wsimpl; lia.
  - destruct (main w) as [[| |]| |] eqn:Hm; try done.
    unfold count_pc in *. wsimpl. by rewrite Hm in Hinv.
  - unfold TriggerCheck. destruct (main w) as [[| |]| |] eqn:Hm;
      unfold count_pc in *; wsimpl; by rewrite ?Hm in *.
  - destruct (main w) as [[| |]| |] eqn:Hm; try done.
    rewrite count_pc_spawn. cbn [in_check_pc].
    unfold count_pc in *. wsimpl. rewrite Hm in Hinv. lia.
  - rewrite count_pc_spawn. cbn [in_check_pc]. wsimpl. lia.
Qed.

Lemma run_guard_inv (acts : list action) (w : world) :
  guard_inv w → guard_inv (run acts w).
Proof.
  revert w. induction acts as [|a acts IH]; intros w Hinv; [done|].
  rewrite run_cons. by apply IH, step_guard_inv.
Qed.

Lemma start_guard_inv (cron : bool) (threshold : Z) (d : disk) :
  guard_inv (start cron threshold d).
Proof. by destruct cron. Qed.

Lemma step_cas_busy (g : gid) (w : world) :
  exited w = None → pc_of w g = Some AtCas → checking w = true →
  step (ACas g) w
  = set_pc g (Returned false) (emit_w [Log LWarn MsgCheckSkipped] w).
Proof.
  intros Hx Hpc Hc. unfold step. rewrite Hx, Hpc.
  by apply triggerCheck_enter_busy.
Qed.

Lemma step_cas_free (g : gid) (w : world) :
  exited w = None → pc_of w g = Some AtCas → checking w = false →
  step (ACas g) w
  = set_pc g InCheck
      (set_rounds (S (rounds w))
         (emit_w [Log LInfo MsgPrepareCheck] (set_checking true w))).
Proof.
  intros Hx Hpc Hc. unfold step. rewrite Hx, Hpc.
  by apply triggerCheck_enter_free.
Qed.

(** Every goroutine of [gs] reaches the swap while the flag is up: each
    one logs the skip and returns; nothing else changes. *)
Lemma cas_while_busy (gs : list gid) (w : world) :
  exited w = None → checking w = true → NoDup gs →
  (∀ g, g ∈ gs → pc_of w g = Some AtCas) →
  let w' := run (ACas <$> gs) w in
  checking w' = true ∧ exited w' = None ∧ rounds w' = rounds w ∧
  dsk w' = dsk w ∧
  trace w' = trace w ++ replicate (length gs) (Log LWarn MsgCheckSkipped) ∧
  (∀ g, g ∈ gs → pc_of w' g = Some (Returned false)) ∧
  (∀ g, g ∉ gs → pc_of w' g = pc_of w g).
Proof.
  revert w. induction gs as [|g gs IH]; intros w Hx Hc Hnd Hpcs; cbn zeta.
  - cbn. rewrite app_nil_r. split_and!; try done. by intros g ?%elem_of_nil.
  - apply NoDup_cons in Hnd as [Hg Hnd].
    assert (pc_of w g = Some AtCas) as Hpc by (apply Hpcs; left).
    rewrite fmap_cons, run_cons, step_cas_busy by done.
    set (w1 := set_pc g (Returned false) (emit_w [Log LWarn MsgCheckSkipped] w)).
    assert (pc_of (emit_w [Log LWarn MsgCheckSkipped] w) g = Some AtCas) as Hpc'
      by (by destruct g).
    assert (∀ g', g' ≠ g → pc_of w1 g' = pc_of w g') as Hother.
    { intros g' Hne. unfold w1.
      rewrite (pc_of_set_pc_other g g' AtCas) by done. by destruct g'. }
    assert (exited w1 = None) as Hx1 by (by destruct g).
    assert (checking w1 = true) as Hc1 by (by destruct g).
    assert (∀ g', g' ∈ gs → pc_of w1 g' = Some AtCas) as Hpcs1.
    { intros g' Hin. rewrite Hother; [apply Hpcs; by right|].
      intros ->. done. }
    destruct (IH w1 Hx1 Hc1 Hnd Hpcs1) as (Hc' & Hx' & Hr' & Hd' & Ht' & Hin' & Hout').
    split_and!; try done.
    + rewrite Hr'. by destruct g.
    + rewrite Hd'. by destruct g.
    + rewrite Ht'. cbn [length replicate].
      assert (trace w1 = trace w ++ [Log LWarn MsgCheckSkipped]) as ->
        by (by destruct g).
      by rewrite <- app_assoc.
    + intros g' [->|Hin]%elem_of_cons; [|by apply Hin'].
      rewrite Hout' by done. unfold w1. by apply (pc_of_set_pc_same g AtCas).
    + intros g' Hnin. apply not_elem_of_cons in Hnin as [Hne Hnin].
      rewrite Hout' by done. by apply Hother.
Qed.

(** C2: in every state the process can reach, at most one goroutine is
    inside a round, and the flag is up exactly when one is. A goroutine
    that reaches the swap while the flag is up logs the skip and returns,
    and nothing else changes; one that finds the flag down wins and enters
    the round. When several goroutines reach the swap one after the other
    before the round ends, exactly the first enters the round and every
    other one skips. A round that finishes lowers the flag. *)
Theorem single_flight (cron : bool) (threshold : Z) (d : disk) (acts : list action) :
  let w := run acts (start cron threshold d) in
  (in_check w ≤ 1)%nat ∧
  (checking w = true ↔ in_check w = 1%nat) ∧
  (∀ g, exited w = None → pc_of w g = Some AtCas → checking w = true →
     step (ACas g) w
     = set_pc g (Returned false) (emit_w [Log LWarn MsgCheckSkipped] w)) ∧
  (∀ g, exited w = None → pc_of w g = Some AtCas → checking w = false →
     let w' := step (ACas g) w in
     checking w' = true ∧ pc_of w' g = Some InCheck ∧
     rounds w' = S (rounds w) ∧ in_check w' = 1%nat) ∧
  (∀ g gs, exited w = None → checking w = false → NoDup (g :: gs) →
     (∀ g', g' ∈ g :: gs → pc_of w g' = Some AtCas) →
     let w' := run (ACas <$> g :: gs) w in
     rounds w' = S (rounds w) ∧ in_check w' = 1%nat ∧
     pc_of w' g = Some InCheck ∧
     (∀ g', g' ∈ gs → pc_of w' g' = Some (Returned false)) ∧
     dsk w' = dsk w ∧
     trace w' = trace w ++ Log LInfo MsgPrepareCheck
                  :: replicate (length gs) (Log LWarn MsgCheckSkipped)) ∧
  (∀ g successUrls failedUrls, exited w = None → pc_of w g = Some InCheck →
     let w' := step (AFinish g (CheckOk successUrls failedUrls)) w in
     checking w' = false ∧ pc_of w' g = Some (Returned true) ∧
     in_check w' = 0%nat).
Proof.
  intros w.
  assert (guard_inv w) as Hinv by apply run_guard_inv, start_guard_inv.
  assert (∀ g, exited w = None → pc_of w g = Some AtCas → checking w = false →
     let w' := step (ACas g) w in
     checking w' = true ∧ pc_of w' g = Some InCheck ∧
     rounds w' = S (rounds w) ∧ in_check w' = 1%nat ∧ exited w' = None ∧
     dsk w' = dsk w ∧ trace w' = trace w ++ [Log LInfo MsgPrepareCheck] ∧
     (∀ g', g' ≠ g → pc_of w' g' = pc_of w g')) as Hfree.
  { intros g Hx Hpc Hc. cbn zeta.
    pose proof (step_guard_inv (ACas g) w Hinv) as Hinv'.
    rewrite step_cas_free in * by done.
    set (w0 := set_rounds _ _) in *.
    assert (pc_of w0 g = Some AtCas) as Hpc0 by (by destruct g).
    split_and!.
    - by destruct g.
    - by apply (pc_of_set_pc_same g AtCas).
    - by destruct g.
    - unfold guard_inv in Hinv'. rewrite Hinv'. by destruct g.
    - by destruct g.
    - by destruct g.
    - by destruct g.
    - intros g' Hne. rewrite (pc_of_set_pc_other g g' AtCas) by done.
      by destruct g'. }
  split_and!.
  - unfold guard_inv in Hinv. destruct (checking w); lia.
  - unfold guard_inv in Hinv. destruct (checking w); split; (done || lia).
  - intros g. apply step_cas_busy.
  - intros g Hx Hpc Hc. destruct (Hfree g Hx Hpc Hc) as (?&?&?&?&_). done.
  - intros g gs Hx Hc Hnd Hpcs. cbn zeta.
    apply NoDup_cons in Hnd as [Hg Hnd].
    assert (pc_of w g = Some AtCas) as Hpc by (apply Hpcs; left).
    destruct (Hfree g Hx Hpc Hc) as (Hc1 & Hpc1 & Hr1 & Hin1 & Hx1 & Hd1 & Ht1 & Ho1).
    rewrite fmap_cons, run_cons.
    set (w1 := step (ACas g) w) in *.
    assert (∀ g', g' ∈ gs → pc_of w1 g' = Some AtCas) as Hpcs1.
    { intros g' Hin. rewrite Ho1; [apply Hpcs; by right|]. by intros ->. }
    destruct (cas_while_busy gs w1 Hx1 Hc1 Hnd Hpcs1)
      as (Hc' & Hx' & Hr' & Hd' & Ht' & Hin' & Hout').
    pose proof (run_guard_inv (ACas <$> gs) w1
                  (step_guard_inv (ACas g) w Hinv)) as Hinv'.
    unfold guard_inv in Hinv'. rewrite Hc' in Hinv'.
    split_and!; try done.
    + by rewrite Hr'.
    + by rewrite Hout'.
    + by rewrite Hd'.
    + rewrite Ht', Ht1. by rewrite <- app_assoc.
  - intros g successUrls failedUrls Hx Hpc. cbn zeta.
    pose proof (step_guard_inv (AFinish g (CheckOk successUrls failedUrls)) w Hinv)
      as Hinv'.
    unfold step in *. rewrite Hx, Hpc in *.
    destruct (triggerCheck_finish_ok g successUrls failedUrls w) as (d' & t & Heq).
    rewrite Heq in *.
    assert (checking (set_pc g (Returned true)
                        (set_checking false (emit_w t (set_dsk d' w)))) = false)
      as Hc' by (by destruct g).
    split_and!; [done| |].
    + apply (pc_of_set_pc_same g InCheck). by destruct g.
    + unfold guard_inv in Hinv'. by rewrite Hc' in Hinv'.
Qed.

Lemma single_flight_witness :
  let d := {| config_file := Holds ∅; config_writable := true;
              state_file := Missing; state_writable := true |} in
  let w := run [ATimer; ATimer] (start false 3 d) in
  let w' := run (ACas <$> GWorker 0 :: [GMain; GWorker 1]) w in
  rounds w' = S (rounds w) ∧ in_check w' = 1%nat ∧
  pc_of w' (GWorker 0) = Some InCheck ∧
  (∀ g', g' ∈ [GMain; GWorker 1] → pc_of w' g' = Some (Returned false)) ∧
  dsk w' = dsk w ∧
  trace w' = trace w ++ Log LInfo MsgPrepareCheck
               :: replicate (length [GMain; GWorker 1]) (Log LWarn MsgCheckSkipped).
Proof.
  intros d w.
  apply (proj1 (proj2 (proj2 (proj2 (proj2
           (single_flight false 3 d [ATimer; ATimer])))))
           (GWorker 0) [GMain; GWorker 1]).
  - reflexivity.
  - reflexivity.
  - apply (bool_decide_unpack _). vm_compute. reflexivity.
  - intros g' Hin.
    repeat (apply elem_of_cons in Hin as [->|Hin]); try reflexivity.
    by apply elem_of_nil in Hin.
Defined.

(** ** A failed round ends the process *)







(** ** The manual trigger *)

Lemma step_while_busy (a : action) (w : world) :
  checking w = true → is_finish a = false →
  rounds (step a w) = rounds w ∧ checking (step a w) = true.
Proof.
  intros Hc Ha. unfold step. destruct (exited w); [done|].
  destruct a as [g|g r| | | |]; try done.
  - destruct (pc_of w g) as [[| |]|]; try done.
    rewrite triggerCheck_enter_busy by done. by destruct g.
  - by destruct (main w) as [[| |]| |].
  - unfold TriggerCheck. by destruct (main w).
  - by destruct (main w).
Qed.

Lemma run_while_busy (acts : list action) (w : world) :
  checking w = true → (∀ a, a ∈ acts → is_finish a = false) →
  rounds (run acts w) = rounds w ∧ checking (run acts w) = true.
Proof.
  revert w. induction acts as [|a acts IH]; intros w Hc Hnf; [done|].
  rewrite run_cons.
  destruct (step_while_busy a w Hc) as [Hr Hc']; [apply Hnf; left|].
  destruct (IH (step a w) Hc') as [Hr' Hc'']; [intros b Hb; apply Hnf; by right|].
  split; [congruence | done].
Qed.

Lemma step_rounds_bound (a : action) (w : world) :
  (rounds (step a w) + pending (step a w)
   ≤ rounds w + pending w + (if is_spawn a then 1 else 0))%nat.
Proof.
  unfold step, pending. destruct (exited w); [lia|].
  destruct a as [g|g r| | | |]; cbn [is_spawn].
  - destruct (pc_of w g) as [[| |]|] eqn:Hpc; try lia.
    destruct (checking w) eqn:Hc.
    + rewrite triggerCheck_enter_busy by done.
      pose proof (count_pc_set_pc at_cas_pc g AtCas (Returned false)
                    (emit_w [Log LWarn MsgCheckSkipped] w) Hpc) as Hcount.
      cbn [at_cas_pc] in Hcount.
      destruct g; wsimpl; unfold count_pc in *; wsimpl; lia.
    + rewrite triggerCheck_enter_free by done.
      pose proof (count_pc_set_pc at_cas_pc g AtCas InCheck
                    (set_rounds (S (rounds w))
                       (emit_w [Log LInfo MsgPrepareCheck] (set_checking true w)))
                    Hpc) as Hcount.
      cbn [at_cas_pc] in Hcount.
      destruct g; wsimpl; unfold count_pc in *; wsimpl; lia.
  - destruct (pc_of w g) as [[| |]|] eqn:Hpc; try lia.
    destruct r as [|successUrls failedUrls].
    + rewrite triggerCheck_finish_err. unfold count_pc. wsimpl. lia.
    + destruct (triggerCheck_finish_ok g successUrls failedUrls w) as (d & t & ->).
      pose proof (count_pc_set_pc at_cas_pc g InCheck (Returned true)
                    (set_checking false (emit_w t (set_dsk d w))) Hpc) as Hcount.
      cbn [at_cas_pc] in Hcount.
      destruct g; wsimpl; unfold count_pc in *; wsimpl; lia.
  - destruct (main w) as [[| |]| |] eqn:Hm; try lia.
    unfold count_pc. wsimpl. rewrite Hm. cbn [at_cas_pc]. lia.
  - unfold TriggerCheck. destruct (main w) as [[| |]| |] eqn:Hm;
      unfold count_pc; wsimpl; rewrite ?Hm; lia.
  - destruct (main w) as [[| |]| |] eqn:Hm; try lia.
    rewrite count_pc_spawn. cbn [at_cas_pc].
    unfold count_pc. wsimpl. rewrite Hm. lia.
  - rewrite count_pc_spawn. cbn [at_cas_pc]. wsimpl. lia.
Qed.

Lemma run_rounds_bound (acts : list action) (w : world) :
  (rounds (run acts w) + pending (run acts w)
   ≤ rounds w + pending w + length (filter (λ a, is_spawn a = true) acts))%nat.
Proof.
  revert w. induction acts as [|a acts IH]; intros w; [cbn; lia|].
  rewrite run_cons, filter_cons. specialize (IH (step a w)).
  pose proof (step_rounds_bound a w).
  destruct (is_spawn a); case_decide; try done; cbn [length]; lia.
Qed.

(** C3, as the specification states it, fails: a round fired by cron is in
    flight; [TriggerCheck] is called ten times during it and every call is
    accepted, because the loop of [Run] is back on the channel as soon as
    it has started the goroutine of the previous call; the ten goroutines
    reach the swap only after the round has ended, one after the other:
    ten more rounds run, one per call. *)
Lemma TriggerCheck_burst_counterexample :
  let d := {| config_file := Holds ∅; config_writable := true;
              state_file := Missing; state_writable := true |} in
  let w0 := run [ATimer; ACas (GWorker 0)] (start true 0 d) in
  let w1 := run (burst 10) w0 in
  let w2 := run (AFinish (GWorker 0) (CheckOk [] []) :: one_by_one 1 10) w1 in
  (in_check w0 = 1 ∧ rounds w0 = 1)%nat ∧
  (in_check w1 = 1 ∧ rounds w1 = 1)%nat ∧
  trace w1 = trace w0 ++ replicate 10 (Log LInfo MsgManualTrigger) ∧
  rounds w2 = 11%nat ∧
  ¬ (rounds w2 ≤ rounds w0 + 1)%nat.
Proof.
  intros d w0 w1 w2.
  assert (rounds w2 = 11%nat) as H2 by (vm_compute; reflexivity).
  assert (rounds w0 = 1%nat) as H0 by (vm_compute; reflexivity).
  split_and!; [vm_compute; reflexivity | done | vm_compute; reflexivity
              | vm_compute; reflexivity | vm_compute; reflexivity | done |].
  rewrite H2, H0. lia.
Qed.

(** C3 (amended): [TriggerCheck] never blocks. When the loop of [Run] is
    not waiting on the channel the call changes nothing and logs the busy
    warning; when it is, the signal is handed over and the loop starts one
    goroutine for it. While a round is in flight no other round starts,
    however many calls are made and whatever the goroutines started for
    them do: each one that reaches the swap during the round skips. The
    number of rounds that run later is bounded by the number of goroutines
    that entered [triggerCheck] and had not reached the swap, one per
    accepted call at most. *)
Theorem TriggerCheck_best_effort (w : world) :
  (main w ≠ MainRecv →
     TriggerCheck w = emit_w [Log LWarn MsgManualBusy] w) ∧
  (main w = MainRecv →
     TriggerCheck w = set_main MainGo (emit_w [Log LInfo MsgManualTrigger] w)) ∧
  (∀ acts, checking w = true → (∀ a, a ∈ acts → is_finish a = false) →
     rounds (run acts w) = rounds w ∧ checking (run acts w) = true) ∧
  (∀ acts,
     (rounds (run acts w) + pending (run acts w)
      ≤ rounds w + pending w + length (filter (λ a, is_spawn a = true) acts))%nat).
Proof.
  split_and!.
  - intros Hm. unfold TriggerCheck. by destruct (main w).
  - intros Hm. unfold TriggerCheck. by rewrite Hm.
  - intros acts. by apply run_while_busy.
  - intros acts. apply run_rounds_bound.
Qed.

Lemma TriggerCheck_best_effort_witness :
  let d := {| config_file := Holds ∅; config_writable := true;
              state_file := Missing; state_writable := true |} in
  let w := run [ACas GMain] (start false 3 d) in
  TriggerCheck w = emit_w [Log LWarn MsgManualBusy] w ∧
  (rounds (run (burst 10 ++ (ACas <$> (GWorker <$> seq 0 10))) w) = rounds w ∧
   checking (run (burst 10 ++ (ACas <$> (GWorker <$> seq 0 10))) w) = true).
Proof.
  intros d w. split.
  - apply (proj1 (TriggerCheck_best_effort w)). discriminate.
  - apply (proj1 (proj2 (proj2 (TriggerCheck_best_effort w)))).
    + reflexivity.
    + intros a Hin. apply elem_of_app in Hin as [Hin|Hin].
      * repeat (apply elem_of_cons in Hin as [->|Hin]; [reflexivity|]).
        by apply elem_of_nil in Hin.
      * repeat (apply elem_of_cons in Hin as [->|Hin]; [reflexivity|]).
        by apply elem_of_nil in Hin.
Defined.

(** * Further properties of the code *)

(** ** The ledger *)

Lemma lookup_of_GetFailCount (s : SubsState) (url : string) (c : Z) :
  GetFailCount s url = c → c ≠ 0 → FailCounts s !! url = Some c.
Proof.
  unfold GetFailCount. destruct (FailCounts s !! url); simpl; congruence.
Qed.

Lemma record_all_app (s : SubsState) (url : string) (o1 o2 : list bool) :
  record_all s url (o1 ++ o2) = record_all (record_all s url o1) url o2.
Proof. unfold record_all. apply foldl_app. Qed.

Lemma record_all_other (s : SubsState) (url other : string) (outcomes : list bool) :
  other ≠ url →
  FailCounts (record_all s url outcomes) !! other = FailCounts s !! other.
Proof.
  intros Hne. revert s. induction outcomes as [|o os IH]; intros s; [done|].
  unfold record_all in *. cbn [foldl fold_left]. rewrite IH.
  by apply FailCounts_update_other.
Qed.

Lemma record_failures (n : nat) (s : SubsState) (url : string) :
  GoInt.min_int ≤ GetFailCount s url →
  GetFailCount s url + Z.of_nat n ≤ GoInt.max_int →
  GetFailCount (record_all s url (replicate n true)) url
  = GetFailCount s url + Z.of_nat n.
Proof.
  revert s. induction n as [|n IH]; intros s Hlo Hhi.
  - cbn. lia.
  - cbn [replicate]. unfold record_all in *. cbn [foldl fold_left].
    assert (GetFailCount (UpdateFailCount s url true).1 url
            = GetFailCount s url + 1) as Hstep.
    { rewrite GetFailCount_update_same. apply wrap_in_range.
      unfold GoInt.in_range. lia. }
    rewrite IH; rewrite Hstep; lia.
Qed.

(** X1: [CleanupUrls] deletes exactly the named entries, whether or not
    they exist and however often they are named; every other entry is
    kept; one debug record is logged per name, in order. *)
Theorem CleanupUrls_forgets (s : SubsState) (urls : list string) :
  (∀ url, url ∈ urls → FailCounts (CleanupUrls s urls).1 !! url = None) ∧
  (∀ url, url ∉ urls →
     FailCounts (CleanupUrls s urls).1 !! url = FailCounts s !! url) ∧
  (CleanupUrls s urls).2 = (λ url, Log LDebug (MsgStateCleaned url)) <$> urls ∧
  (GetTotalUrls (CleanupUrls s urls).1 ≤ GetTotalUrls s)%nat.
Proof.
  split_and!.
  - intros url Hin. rewrite FailCounts_CleanupUrls.
    by rewrite bool_decide_eq_true_2.
  - intros url Hnin. rewrite FailCounts_CleanupUrls.
    by rewrite bool_decide_eq_false_2.
  - revert s. induction urls as [|u urls IH]; intros s; [done|].
    cbn [CleanupUrls]. specialize (IH {| FailCounts := delete u (FailCounts s) |}).
    destruct (CleanupUrls _ urls) as [s2 t]. cbn [snd] in *. by rewrite IH.
  - unfold GetTotalUrls. apply map_subseteq_size, map_subseteq_spec.
    intros url c. rewrite FailCounts_CleanupUrls. by case_bool_decide.
Qed.

Lemma CleanupUrls_forgets_witness :
  let s := {| FailCounts := {[ "a"%string := 3; "b"%string := 1 ]} |} in
  FailCounts (CleanupUrls s ["a"%string; "zz"%string]).1 !! "a"%string = None ∧
  FailCounts (CleanupUrls s ["a"%string; "zz"%string]).1 !! "b"%string
  = FailCounts s !! "b"%string.
Proof.
  intros s. split.
  - apply (proj1 (CleanupUrls_forgets s ["a"%string; "zz"%string])). left.
  - apply (proj1 (proj2 (CleanupUrls_forgets s ["a"%string; "zz"%string]))).
    intros Hin. repeat (apply elem_of_cons in Hin as [Hin|Hin]; [discriminate|]).
    by apply elem_of_nil in Hin.
Defined.

(** X2: after a source was forgotten its history is gone: the next failed
    outcome gives it the count 1, whatever its count was, and the next
    successful outcome the count 0; in both cases it is in the ledger
    again. *)
Theorem forget_then_record (s : SubsState) (urls : list string) (url : string)
    (failed : bool) (Hforgotten : url ∈ urls) :
  FailCounts (UpdateFailCount (CleanupUrls s urls).1 url failed).1 !! url
  = Some (if failed then 1 else 0).
Proof.
  pose proof (FailCounts_CleanupUrls s urls url) as Hgone.
  rewrite bool_decide_eq_true_2 in Hgone by done.
  unfold UpdateFailCount, GetFailCount. rewrite Hgone.
  destruct failed; cbn [fst FailCounts]; by rewrite lookup_insert_eq.
Qed.

Lemma forget_then_record_witness :
  let s := {| FailCounts := {[ "A"%string := 3 ]} |} in
  FailCounts (UpdateFailCount (CleanupUrls s ["A"%string]).1 "A" true).1 !! "A"%string
  = Some 1.
Proof.
  intros s. apply (forget_then_record s ["A"%string] "A"%string true). left.
Defined.

(** X3: the count is the length of the current run of failures: after any
    outcomes that end with a success followed by [n] failures the count is
    [n] (for [n] up to the largest [int]), whatever the ledger held and
    whatever came before; without any success, [n] failures add [n] to
    the count; the entries of the other sources are not touched. *)
Theorem record_all_streak (s : SubsState) (url : string) (before : list bool)
    (n : nat) (Hfits : Z.of_nat n ≤ GoInt.max_int) :
  GetFailCount (record_all s url (before ++ false :: replicate n true)) url
  = Z.of_nat n ∧
  (GoInt.min_int ≤ GetFailCount s url →
   GetFailCount s url + Z.of_nat n ≤ GoInt.max_int →
   GetFailCount (record_all s url (replicate n true)) url
   = GetFailCount s url + Z.of_nat n) ∧
  (∀ other outcomes, other ≠ url →
     FailCounts (record_all s url outcomes) !! other = FailCounts s !! other).
Proof.
  split_and!.
  - rewrite record_all_app.
    change (false :: replicate n true) with ([false] ++ replicate n true).
    rewrite record_all_app.
    set (s1 := record_all (record_all s url before) url [false]).
    assert (GetFailCount s1 url = 0) as H0.
    { unfold s1, record_all. cbn [foldl fold_left].
      apply GetFailCount_update_same. }
    rewrite record_failures; rewrite H0; try lia.
    unfold GoInt.min_int, GoInt.int_size. lia.
  - apply record_failures.
  - intros other outcomes. apply record_all_other.
Qed.

Lemma record_all_streak_witness :
  let s := {| FailCounts := {[ "A"%string := 7 ]} |} in
  GetFailCount (record_all s "A" ([true; false] ++ false :: replicate 2 true)) "A"
  = Z.of_nat 2.
Proof.
  intros s.
  apply (proj1 (record_all_streak s "A"%string [true; false] 2 ltac:(done))).
Defined.

(** X4: a source that failed [n] times in a row since it entered the
    ledger is in the eviction set exactly for the positive thresholds up
    to [n]: with threshold 3, three failures in a row select it and two do
    not. *)
Theorem failures_reach_threshold (url : string) (n : nat) (threshold : Z)
    (Hfits : Z.of_nat n ≤ GoInt.max_int) :
  url ∈ GetFailedUrls (record_all NewSubsState url (replicate n true)) threshold
  ↔ 0 < threshold ≤ Z.of_nat n.
Proof.
  assert (GetFailCount (record_all NewSubsState url (replicate n true)) url
          = Z.of_nat n) as Hcount.
  { assert (GetFailCount NewSubsState url = 0) as H0
      by (unfold GetFailCount; cbn; by rewrite lookup_empty).
    rewrite record_failures; rewrite H0; try lia.
    unfold GoInt.min_int, GoInt.int_size. lia. }
  rewrite elem_of_GetFailedUrls. split.
  - intros (Hpos & c & Hl & Hc). unfold GetFailCount in Hcount.
    rewrite Hl in Hcount. cbn in Hcount. lia.
  - intros [Hpos Hle]. split; [done|]. exists (Z.of_nat n). split; [|done].
    apply lookup_of_GetFailCount; [done | lia].
Qed.

Lemma failures_reach_threshold_witness :
  "A"%string ∈ GetFailedUrls (record_all NewSubsState "A" (replicate 3 true)) 3
  ↔ 0 < 3 ≤ Z.of_nat 3.
Proof. apply (failures_reach_threshold "A"%string 3 3). done. Defined.

(** X5: [GetFailedUrls] only names sources that have an entry in the
    ledger, and a higher threshold selects fewer of them. *)
Theorem GetFailedUrls_antitone (s : SubsState) (low high : Z)
    (Hlow : 0 < low) (Hle : low ≤ high) :
  (∀ url, url ∈ GetFailedUrls s high → url ∈ GetFailedUrls s low) ∧
  (∀ url, url ∈ GetFailedUrls s low → is_Some (FailCounts s !! url)).
Proof.
  split.
  - intros url. rewrite !elem_of_GetFailedUrls.
    intros (Hpos & c & Hl & Hc). split; [done|]. exists c. split; [done | lia].
  - intros url. rewrite elem_of_GetFailedUrls. intros (_ & c & Hl & _). eauto.
Qed.

Lemma GetFailedUrls_antitone_witness :
  let s := {| FailCounts := {[ "A"%string := 5 ]} |} in
  "A"%string ∈ GetFailedUrls s 2 ∧ is_Some (FailCounts s !! "A"%string).
Proof.
  intros s.
  assert ("A"%string ∈ GetFailedUrls s 4) as Hhigh.
  { apply elem_of_GetFailedUrls. split; [lia|]. exists 5.
    split; [reflexivity | lia]. }
  pose proof (GetFailedUrls_antitone s 2 4 ltac:(lia) ltac:(lia)) as [Hsub Hknown].
  split; [by apply Hsub | by apply Hknown, Hsub].
Defined.

(** X6: forgetting the eviction set leaves no source at or above the
    threshold and keeps every entry below it. *)
Theorem eviction_clears_threshold (s : SubsState) (threshold : Z) :
  let evicted := GetFailedUrls s threshold in
  GetFailedUrls (CleanupUrls s evicted).1 threshold = [] ∧
  (0 < threshold → ∀ url count,
     FailCounts s !! url = Some count → count < threshold →
     FailCounts (CleanupUrls s evicted).1 !! url = Some count).
Proof.
  cbn zeta. split.
  - apply elem_of_nil_inv. intros url. rewrite elem_of_GetFailedUrls.
    intros (Hpos & c & Hl & Hc). rewrite FailCounts_CleanupUrls in Hl.
    case_bool_decide as Hin; [done|]. apply Hin.
    apply elem_of_GetFailedUrls. eauto.
  - intros Hpos url c Hl Hc. rewrite FailCounts_CleanupUrls.
    rewrite bool_decide_eq_false_2; [done|].
    rewrite elem_of_GetFailedUrls. intros (_ & c' & Hl' & Hc').
    rewrite Hl in Hl'. injection Hl' as <-. lia.
Qed.

Lemma eviction_clears_threshold_witness :
  let s := {| FailCounts := {[ "a"%string := 3; "b"%string := 1 ]} |} in
  FailCounts (CleanupUrls s (GetFailedUrls s 3)).1 !! "b"%string = Some 1.
Proof.
  intros s.
  apply (proj2 (eviction_clears_threshold s 3) ltac:(lia) "b"%string 1);
    [reflexivity | lia].
Defined.

(** X7: the ledger holds every source ever recorded: an outcome for a
    source without an entry, successful or failed, adds one entry, an
    outcome for a known source adds none, and no outcome removes one. *)
Theorem UpdateFailCount_total (s : SubsState) (url : string) (failed : bool) :
  GetTotalUrls (UpdateFailCount s url failed).1
  = match FailCounts s !! url with
    | Some _ => GetTotalUrls s
    | None => S (GetTotalUrls s)
    end ∧
  is_Some (FailCounts (UpdateFailCount s url failed).1 !! url) ∧
  (∀ other, is_Some (FailCounts s !! other) →
            is_Some (FailCounts (UpdateFailCount s url failed).1 !! other)).
Proof.
  unfold GetTotalUrls. split_and!.
  - destruct (FailCounts s !! url) as [c|] eqn:Hl.
    + destruct failed; cbn [UpdateFailCount fst FailCounts].
      * apply map_size_insert_Some. eauto.
      * apply map_size_insert_Some. eauto.
    + destruct failed; cbn [UpdateFailCount fst FailCounts];
        by apply map_size_insert_None.
  - destruct failed; cbn [UpdateFailCount fst FailCounts];
      rewrite lookup_insert_eq; eauto.
  - intros other Hsome. destruct (decide (other = url)) as [->|Hne].
    + destruct failed; cbn [UpdateFailCount fst FailCounts];
        rewrite lookup_insert_eq; eauto.
    + by rewrite FailCounts_update_other.
Qed.

Lemma UpdateFailCount_total_witness :
  let s := {| FailCounts := {[ "a"%string := 3 ]} |} in
  is_Some (FailCounts (UpdateFailCount s "b" false).1 !! "a"%string).
Proof.
  intros s.
  apply (proj2 (proj2 (UpdateFailCount_total s "b"%string false)) "a"%string).
  by exists 3.
Defined.

(** ** Recording a round *)

Lemma update_each_success (s : SubsState) (urls : list string) (url : string) :
  FailCounts (update_each s urls false).1 !! url
  = if bool_decide (url ∈ urls) then Some 0 else FailCounts s !! url.
Proof.
  revert s. induction urls as [|u urls IH]; intros s; cbn [update_each].
  - cbn. case_bool_decide as H; [by apply elem_of_nil in H | done].
  - destruct (UpdateFailCount s u false) as [s1 t1] eqn:E1.
    specialize (IH s1). destruct (update_each s1 urls false) as [s2 t2].
    cbn [fst] in *. rewrite IH.
    assert (FailCounts s1 = <[u := 0]> (FailCounts s)) as ->
      by (unfold UpdateFailCount in E1; by simplify_eq).
    case_bool_decide as H1; case_bool_decide as H2; try done.
    + exfalso. apply H2. by right.
    + apply elem_of_cons in H2 as [->|?]; [|done]. by rewrite lookup_insert_eq.
    + rewrite lookup_insert_ne; [done|]. intros ->. apply H2. left.
Qed.

Lemma occurrences_cons (url u : string) (urls : list string) :
  occurrences url (u :: urls)
  = ((if bool_decide (u = url) then 1 else 0) + occurrences url urls)%nat.
Proof.
  unfold occurrences. rewrite filter_cons.
  case_decide; case_bool_decide; done.
Qed.

Lemma update_each_failure_other (s : SubsState) (urls : list string) (url : string) :
  url ∉ urls →
  FailCounts (update_each s urls true).1 !! url = FailCounts s !! url.
Proof.
  revert s. induction urls as [|u urls IH]; intros s Hnin; cbn [update_each]; [done|].
  apply not_elem_of_cons in Hnin as [Hne Hnin].
  destruct (UpdateFailCount s u true) as [s1 t1] eqn:E1.
  specialize (IH s1 Hnin). destruct (update_each s1 urls true) as [s2 t2].
  cbn [fst] in *. rewrite IH.
  replace s1 with (UpdateFailCount s u true).1 by (by rewrite E1).
  by apply FailCounts_update_other.
Qed.

Lemma update_each_failure (s : SubsState) (urls : list string) (url : string) :
  GoInt.min_int ≤ GetFailCount s url →
  GetFailCount s url + Z.of_nat (occurrences url urls) ≤ GoInt.max_int →
  GetFailCount (update_each s urls true).1 url
  = GetFailCount s url + Z.of_nat (occurrences url urls).
Proof.
  revert s. induction urls as [|u urls IH]; intros s Hlo Hhi; cbn [update_each].
  - cbn. lia.
  - rewrite occurrences_cons in *.
    destruct (UpdateFailCount s u true) as [s1 t1] eqn:E1.
    specialize (IH s1). destruct (update_each s1 urls true) as [s2 t2].
    cbn [fst] in *.
    assert (s1 = (UpdateFailCount s u true).1) as Hs1 by (by rewrite E1).
    case_bool_decide as Hu.
    + subst u.
      assert (GetFailCount s1 url = GetFailCount s url + 1) as Hstep.
      { rewrite Hs1, GetFailCount_update_same. apply wrap_in_range.
        unfold GoInt.in_range. lia. }
      rewrite IH; rewrite Hstep; lia.
    + assert (GetFailCount s1 url = GetFailCount s url) as Hstep.
      { unfold GetFailCount. rewrite Hs1.
        by rewrite FailCounts_update_other by done. }
      rewrite IH; rewrite Hstep; lia.
Qed.

(** X8: what one round records. For every source, the successes of the
    round are applied before its failures: the count after the round is
    the number of times the source is reported failed, added to 0 when it
    is also reported successful and to its old count otherwise (as long as
    the sum fits an [int]); a source the round does not report keeps its
    entry, or its absence, untouched. *)
Theorem recorded_counts (d : disk) (successUrls failedUrls : list string)
    (url : string) :
  let old := GetFailCount (loaded_ledger d) url in
  let base := if bool_decide (url ∈ successUrls) then 0 else old in
  (GoInt.min_int ≤ base →
   base + Z.of_nat (occurrences url failedUrls) ≤ GoInt.max_int →
   GetFailCount (recorded d successUrls failedUrls) url
   = base + Z.of_nat (occurrences url failedUrls)) ∧
  (url ∉ successUrls → url ∉ failedUrls →
   FailCounts (recorded d successUrls failedUrls) !! url
   = FailCounts (loaded_ledger d) !! url).
Proof.
  cbn zeta. unfold recorded.
  set (s0 := loaded_ledger d). set (s1 := (update_each s0 successUrls false).1).
  assert (GetFailCount s1 url
          = if bool_decide (url ∈ successUrls) then 0 else GetFailCount s0 url)
    as Hbase.
  { unfold GetFailCount, s1. rewrite update_each_success. by case_bool_decide. }
  split.
  - rewrite <- Hbase. apply update_each_failure.
  - intros Hs Hf. rewrite update_each_failure_other by done.
    unfold s1. rewrite update_each_success. by rewrite bool_decide_eq_false_2.
Qed.

Lemma recorded_counts_witness :
  let d := {| config_file := Holds ∅; config_writable := true;
              state_file := Holds (Some {[ "x"%string := 4 ]});
              state_writable := true |} in
  GetFailCount (recorded d ["x"%string] ["x"%string; "y"%string; "x"%string]) "x"
  = 0 + Z.of_nat (occurrences "x" ["x"%string; "y"%string; "x"%string]).
Proof.
  intros d.
  apply (proj1 (recorded_counts d ["x"%string]
                  ["x"%string; "y"%string; "x"%string] "x"%string)).
  - vm_compute. discriminate.
  - vm_compute. discriminate.
Defined.

(** ** The source-list editor *)

Lemma is_removed_spec (urls : list string) (v : any) :
  is_removed (make_removeSet urls) v = true ↔ ∃ u, u ∈ urls ∧ v = VString u.
Proof.
  destruct v as [| | |str| |]; cbn [is_removed];
    try (split; [done | by intros (u & _ & ?)]).
  rewrite make_removeSet_lookup. rewrite bool_decide_eq_true. split.
  - intros Hin. by exists str.
  - by intros (u & Hin & [= ->]).
Qed.

Lemma removeUrlsFromConfig_list (urls : list string) (d : disk)
    (yamlData : gmap string any) (subUrls : list any) :
  config_file d = Holds yamlData →
  yamlData !! sub_urls_key = Some (VSlice subUrls) →
  let kept := filter (λ v, is_removed (make_removeSet urls) v = false) subUrls in
  let removedCount :=
    length (filter (λ v, is_removed (make_removeSet urls) v = true) subUrls) in
  removeUrlsFromConfig urls d =
    if bool_decide (removedCount = 0%nat) then (Ok (), d, [])
    else if config_writable d
         then (Ok (), set_config_file d (Holds (<[sub_urls_key := VSlice kept]> yamlData)),
               [WriteFile ConfigPath;
                Log LInfo (MsgConfigRemoved removedCount (length kept))])
         else (Err ErrWriteConfig, d, [WriteFile ConfigPath]).
Proof.
  intros Hc Hk. cbn zeta. unfold removeUrlsFromConfig.
  rewrite Hc, Hk, filter_loop_spec. done.
Qed.

Lemma filter_none_removed (removeSet : gmap string bool) (l : list any) :
  length (filter (λ v, is_removed removeSet v = true) l) = 0%nat →
  filter (λ v, is_removed removeSet v = false) l = l.
Proof.
  induction l as [|v l IH]; [done|]. rewrite !filter_cons.
  destruct (is_removed removeSet v) eqn:E; repeat case_decide; try done.
  intros Hlen. f_equal. by apply IH.
Qed.

Lemma filter_some_removed (urls : list string) (l : list any) :
  length (filter (λ v, is_removed (make_removeSet urls) v = true) l) ≠ 0%nat
  ↔ ∃ u, u ∈ urls ∧ VString u ∈ l.
Proof.
  split.
  - intros Hlen.
    destruct (filter (λ v, is_removed (make_removeSet urls) v = true) l)
      as [|v rest] eqn:E; [done|].
    assert (v ∈ filter (λ v, is_removed (make_removeSet urls) v = true) l) as Hv
      by (rewrite E; left).
    apply list_elem_of_filter in Hv as [Hrem Hin].
    apply is_removed_spec in Hrem as (u & Hu & ->). eauto.
  - intros (u & Hu & Hin) Hlen. apply length_zero_iff_nil in Hlen.
    assert (VString u ∈ filter (λ v, is_removed (make_removeSet urls) v = true) l)
      as Hv.
    { apply list_elem_of_filter. split; [|done]. apply is_removed_spec. eauto. }
    rewrite Hlen in Hv. by apply elem_of_nil in Hv.
Qed.

(** X9: a call of [removeUrlsFromConfig] that succeeds keeps every other
    field of the document as it is, and leaves in the source list exactly
    the entries that are not strings of the removal set, in their order:
    entries that are not strings pass through, matching is by equality
    of strings. *)
Theorem removeUrlsFromConfig_preserves (urls : list string) (d : disk)
    (yamlData : gmap string any)
    (Hdoc : config_file d = Holds yamlData)
    (Hok : (removeUrlsFromConfig urls d).1.1 = Ok ()) :
  ∃ yamlData',
    config_file (removeUrlsFromConfig urls d).1.2 = Holds yamlData' ∧
    (∀ key, key ≠ sub_urls_key → yamlData' !! key = yamlData !! key) ∧
    (∀ subUrls, yamlData !! sub_urls_key = Some (VSlice subUrls) →
       yamlData' !! sub_urls_key
       = Some (VSlice (filter (λ v, is_removed (make_removeSet urls) v = false)
                         subUrls))) ∧
    (yamlData !! sub_urls_key = None → yamlData' = yamlData) ∧
    (∀ v, is_removed (make_removeSet urls) v = true
          ↔ ∃ url, url ∈ urls ∧ v = VString url).
Proof.
  destruct (yamlData !! sub_urls_key) as [v|] eqn:Hk.
  - destruct v as [| | | |subUrls|];
      try (exfalso; unfold removeUrlsFromConfig in Hok;
           rewrite Hdoc, Hk in Hok; discriminate).
    pose proof (removeUrlsFromConfig_list urls d yamlData subUrls Hdoc Hk) as Heq.
    cbn zeta in Heq. rewrite Heq in *. clear Heq.
    case_bool_decide as Hzero.
    + exists yamlData. split_and!; try done.
      * intros l [= <-]. by rewrite filter_none_removed.
      * apply is_removed_spec.
    + destruct (config_writable d); [|discriminate].
      eexists. split_and!; [done| | |done|apply is_removed_spec].
      * intros key Hne. by rewrite lookup_insert_ne.
      * intros l [= <-]. by rewrite lookup_insert_eq.
  - exists yamlData. unfold removeUrlsFromConfig. rewrite Hdoc, Hk.
    split_and!; try done. apply is_removed_spec.
Qed.

Lemma removeUrlsFromConfig_preserves_witness :
  let d := {| config_file :=
                Holds {[ sub_urls_key := VSlice [VString "a"; VInt 1; VString "b"];
                         "print-progress"%string := VBool true ]};
              config_writable := true;
              state_file := Missing; state_writable := true |} in
  ∃ yamlData',
    config_file (removeUrlsFromConfig ["a"%string] d).1.2 = Holds yamlData' ∧
    (∀ key, key ≠ sub_urls_key →
       yamlData' !! key
       = ({[ sub_urls_key := VSlice [VString "a"; VInt 1; VString "b"];
             "print-progress"%string := VBool true ]} : gmap string any) !! key) ∧
    (∀ subUrls,
       ({[ sub_urls_key := VSlice [VString "a"; VInt 1; VString "b"];
           "print-progress"%string := VBool true ]} : gmap string any)
         !! sub_urls_key = Some (VSlice subUrls) →
       yamlData' !! sub_urls_key
       = Some (VSlice (filter (λ v, is_removed (make_removeSet ["a"%string]) v = false)
                         subUrls))) ∧
    (({[ sub_urls_key := VSlice [VString "a"; VInt 1; VString "b"];
         "print-progress"%string := VBool true ]} : gmap string any)
       !! sub_urls_key = None →
     yamlData' = {[ sub_urls_key := VSlice [VString "a"; VInt 1; VString "b"];
                    "print-progress"%string := VBool true ]}) ∧
    (∀ v, is_removed (make_removeSet ["a"%string]) v = true
          ↔ ∃ url, url ∈ ["a"%string] ∧ v = VString url).
Proof.
  intros d.
  apply (removeUrlsFromConfig_preserves ["a"%string] d _ eq_refl).
  vm_compute. reflexivity.
Defined.

Lemma listed_after_removal (urls : list string) (d : disk) :
  (removeUrlsFromConfig urls d).1.1 = Ok () →
  ∀ url, listed (removeUrlsFromConfig urls d).1.2 url ↔ listed d url ∧ url ∉ urls.
Proof.
  intros Hok url.
  assert (∀ (l : list any),
            VString url ∈ filter (λ v, is_removed (make_removeSet urls) v = false) l
            ↔ VString url ∈ l ∧ url ∉ urls) as Hfilter.
  { intros l. rewrite list_elem_of_filter. split.
    - intros [Hkeep Hin]. split; [done|]. intros Hu.
      assert (is_removed (make_removeSet urls) (VString url) = true) as Hrem
        by (apply is_removed_spec; eauto).
      congruence.
    - intros [Hin Hu]. split; [|done].
      destruct (is_removed (make_removeSet urls) (VString url)) eqn:E; [|done].
      apply is_removed_spec in E as (u & Hin' & [= ->]). done. }
  destruct (config_file d) as [| | |yamlData] eqn:Hdoc;
    try (unfold removeUrlsFromConfig in *; rewrite Hdoc in *; discriminate).
  unfold listed. rewrite Hdoc.
  destruct (yamlData !! sub_urls_key) as [v|] eqn:Hk.
  - destruct v as [| | | |subUrls|];
      try (exfalso; unfold removeUrlsFromConfig in Hok;
           rewrite Hdoc, Hk in Hok; discriminate).
    pose proof (removeUrlsFromConfig_list urls d yamlData subUrls Hdoc Hk) as Heq.
    cbn zeta in Heq. rewrite Heq in *. clear Heq.
    case_bool_decide as Hzero; cbn [fst snd] in *.
    + rewrite Hdoc. split.
      * intros (y & l & [= <-] & Hk' & Hin). rewrite Hk in Hk'.
        injection Hk' as <-. rewrite <- (filter_none_removed _ _ Hzero) in Hin.
        apply Hfilter in Hin as [Hin Hu]. split; [|done].
        by exists yamlData, subUrls.
      * intros [H _]. done.
    + destruct (config_writable d); [|discriminate]. cbn [fst snd config_file set_config_file].
      split.
      * intros (y & l & [= <-] & Hk' & Hin). rewrite lookup_insert_eq in Hk'.
        injection Hk' as <-. apply Hfilter in Hin as [Hin Hu]. split; [|done].
        by exists yamlData, subUrls.
      * intros [(y & l & [= <-] & Hk' & Hin) Hu]. rewrite Hk in Hk'.
        injection Hk' as <-. eexists _, _. split; [done|].
        split; [apply lookup_insert_eq|]. by apply Hfilter.
  - unfold removeUrlsFromConfig. rewrite Hdoc, Hk. cbn [fst snd]. rewrite Hdoc.
    split; [|by intros [? _]].
    intros (y & l & [= <-] & Hk' & _). congruence.
Qed.

(** X10: after a call of [removeUrlsFromConfig] that succeeds, the source
    list names exactly the sources it named before that are not in the
    removal set; in particular it names none of the removal set. *)
Theorem removeUrlsFromConfig_listed (urls : list string) (d : disk)
    (Hok : (removeUrlsFromConfig urls d).1.1 = Ok ()) :
  (∀ url, listed (removeUrlsFromConfig urls d).1.2 url
          ↔ listed d url ∧ url ∉ urls) ∧
  (∀ url, url ∈ urls → ¬ listed (removeUrlsFromConfig urls d).1.2 url).
Proof.
  split.
  - by apply listed_after_removal.
  - intros url Hin Hlisted.
    apply (listed_after_removal urls d Hok) in Hlisted as [_ Hnin]. done.
Qed.

Lemma removeUrlsFromConfig_listed_witness :
  let d := {| config_file :=
                Holds {[ sub_urls_key := VSlice [VString "a"; VString "b"] ]};
              config_writable := true;
              state_file := Missing; state_writable := true |} in
  listed (removeUrlsFromConfig ["a"%string] d).1.2 "b"
  ↔ listed d "b" ∧ "b"%string ∉ ["a"%string].
Proof.
  intros d.
  apply (proj1 (removeUrlsFromConfig_listed ["a"%string] d eq_refl) "b"%string).
Defined.



(** ** The lifecycle manager *)

(** [handleSubsLifecycle] past its two guards and the load, spelled out. *)
Lemma handleSubsLifecycle_unfold
    (threshold : Z) (successUrls failedUrls : list string) (d : disk) :
  0 < threshold → successUrls ≠ [] ∨ failedUrls ≠ [] →
  state_file d ≠ Unreadable →
  handleSubsLifecycle threshold successUrls failedUrls d =
    let state := recorded d successUrls failedUrls in
    let urlsToRemove := GetFailedUrls state threshold in
    let t12 := (LoadSubsState d).2
               ++ (update_each (loaded_ledger d) successUrls false).2
               ++ (update_each (update_each (loaded_ledger d) successUrls false).1
                     failedUrls true).2 in
    if bool_decide (urlsToRemove = []) then
      if state_writable d
      then (Ok (), set_state_file d (Holds (Some (FailCounts state))),
            t12 ++ [WriteFile StatePath])
      else (Err (ErrSaveState ErrWriteState), d, t12 ++ [WriteFile StatePath])
    else
      let tw := [Log LWarn (MsgFoundToRemove (length urlsToRemove) urlsToRemove)] in
      match removeUrlsFromConfig urlsToRemove d with
      | (Err e, d1, tr) => (Err (ErrRemoveUrls e), d1, t12 ++ tw ++ tr)
      | (Ok _, d1, tr) =>
          let final := CleanupUrls state urlsToRemove in
          let tail := tw ++ tr ++ final.2
                      ++ [Log LInfo (MsgAutoRemoved (length urlsToRemove))]
                      ++ [WriteFile StatePath] in
          if state_writable d1
          then (Ok (), set_state_file d1 (Holds (Some (FailCounts final.1))),
                t12 ++ tail)
          else (Err (ErrSaveState ErrWriteState), d1, t12 ++ tail)
      end.
Proof.
  intros Henabled Hstats Hreadable.
  destruct (LoadSubsState_readable d Hreadable) as (t0 & Hload & _).
  unfold handleSubsLifecycle.
  rewrite bool_decide_eq_false_2 by lia.
  rewrite bool_decide_eq_false_2.
  2:{ intros [H1 H2]. apply length_zero_iff_nil in H1, H2.
      by destruct Hstats as [H|H]; apply H. }
  cbn zeta. unfold recorded.
  unfold mbind, M_bind, mret, M_ret, wrap_err, logged, emit, SaveToFile.
  rewrite Hload. cbn [fst snd].
  destruct (update_each (loaded_ledger d) successUrls false) as [s1 t1].
  cbn [fst snd].
  destruct (update_each s1 failedUrls true) as [s2 t2]. cbn [fst snd].
  destruct (GetFailedUrls s2 threshold) as [|u us] eqn:Eu.
  - rewrite bool_decide_eq_false_2 by (cbn; lia).
    rewrite bool_decide_eq_true_2 by done.
    destruct (state_writable d); cbn [app];
      by rewrite ?app_nil_r, <- ?app_assoc.
  - rewrite bool_decide_eq_true_2 by (cbn; lia).
    rewrite bool_decide_eq_false_2 by done.
    destruct (removeUrlsFromConfig (u :: us) d) as [[[[]|e] d1] tr];
      [|by rewrite ?app_nil_r, <- ?app_assoc].
    destruct (CleanupUrls s2 (u :: us)) as [s3 tc]. cbn [fst snd].
    destruct (state_writable d1); cbn [app];
      by rewrite ?app_nil_r, <- ?app_assoc.
Qed.

Lemma state_file_unreadable_dec (d : disk) :
  state_file d = Unreadable ∨ state_file d ≠ Unreadable.
Proof. destruct (state_file d); (by left) || (by right). Qed.

Lemma handleSubsLifecycle_off (threshold : Z) (successUrls failedUrls : list string)
    (d : disk) :
  threshold ≤ 0 ∨ (successUrls = [] ∧ failedUrls = []) →
  handleSubsLifecycle threshold successUrls failedUrls d = (Ok (), d, []).
Proof.
  intros Hoff. unfold handleSubsLifecycle. case_bool_decide; [done|].
  destruct Hoff as [?|[-> ->]]; [lia|]. by rewrite bool_decide_eq_true_2.
Qed.

Lemma handleSubsLifecycle_unreadable (threshold : Z)
    (successUrls failedUrls : list string) (d : disk) :
  0 < threshold → successUrls ≠ [] ∨ failedUrls ≠ [] →
  state_file d = Unreadable →
  handleSubsLifecycle threshold successUrls failedUrls d
  = (Err (ErrLoadState ErrReadState), d, []).
Proof.
  intros Henabled Hstats Hun. unfold handleSubsLifecycle.
  rewrite bool_decide_eq_false_2 by lia.
  rewrite bool_decide_eq_false_2.
  - unfold mbind, M_bind, wrap_err, LoadSubsState. by rewrite Hun.
  - intros [H1 H2]. apply length_zero_iff_nil in H1, H2.
    by destruct Hstats as [H|H]; apply H.
Qed.

Lemma cleanup_clears (s : SubsState) (threshold : Z) :
  GetFailedUrls (CleanupUrls s (GetFailedUrls s threshold)).1 threshold = [].
Proof.
  apply elem_of_nil_inv. intros url. rewrite elem_of_GetFailedUrls.
  intros (Hpos & c & Hl & Hc). rewrite FailCounts_CleanupUrls in Hl.
  case_bool_decide as Hin; [done|]. apply Hin.
  apply elem_of_GetFailedUrls. eauto.
Qed.

Lemma removeUrlsFromConfig_changed (urls : list string) (d : disk) :
  config_file (removeUrlsFromConfig urls d).1.2 ≠ config_file d →
  ∃ url, url ∈ urls ∧ listed d url.
Proof.
  destruct (config_file d) as [| | |yamlData] eqn:Hdoc;
    try (unfold removeUrlsFromConfig; rewrite Hdoc; cbn [fst snd]; congruence).
  destruct (yamlData !! sub_urls_key) as [v|] eqn:Hk;
    [|unfold removeUrlsFromConfig; rewrite Hdoc, Hk; cbn [fst snd]; congruence].
  destruct v as [| | | |subUrls|];
    try (unfold removeUrlsFromConfig; rewrite Hdoc, Hk; cbn [fst snd]; congruence).
  rewrite (removeUrlsFromConfig_list urls d yamlData subUrls Hdoc Hk).
  case_bool_decide as Hzero; cbn [fst snd]; [congruence|].
  intros _. apply filter_some_removed in Hzero as (u & Hu & Hin).
  exists u. split; [done|]. by exists yamlData, subUrls.
Qed.

(** X12: what a round of [handleSubsLifecycle] that returns no error
    leaves behind (eviction enabled, some statistics): the state file
    holds the recorded counts without the sources that reached the
    threshold, so no count in it reaches the threshold; and the source
    list of the configuration names exactly the sources it named before
    that did not reach the threshold. *)
Theorem handleSubsLifecycle_success
    (threshold : Z) (successUrls failedUrls : list string) (d : disk)
    (Henabled : 0 < threshold)
    (Hstats : successUrls ≠ [] ∨ failedUrls ≠ [])
    (Hok : (handleSubsLifecycle threshold successUrls failedUrls d).1.1 = Ok ()) :
  let state := recorded d successUrls failedUrls in
  let evicted := GetFailedUrls state threshold in
  let d' := (handleSubsLifecycle threshold successUrls failedUrls d).1.2 in
  ∃ final,
    state_file d' = Holds (Some (FailCounts final)) ∧
    GetFailedUrls final threshold = [] ∧
    (∀ url, FailCounts final !! url
            = if bool_decide (url ∈ evicted) then None else FailCounts state !! url) ∧
    (∀ url, listed d' url ↔ listed d url ∧ url ∉ evicted).
Proof.
  cbn zeta.
  destruct (state_file_unreadable_dec d) as [Hun|Hread].
  { rewrite handleSubsLifecycle_unreadable in Hok by done. discriminate. }
  rewrite handleSubsLifecycle_unfold in * by done. cbn zeta in *.
  set (state := recorded d successUrls failedUrls) in *.
  set (evicted := GetFailedUrls state threshold) in *.
  case_bool_decide as Hnil.
  - destruct (state_writable d); [|discriminate]. cbn [fst snd] in *.
    exists state. split_and!; [done|done| |].
    + intros url. rewrite Hnil. case_bool_decide as Hin; [|done].
      by apply elem_of_nil in Hin.
    + intros url. rewrite Hnil. unfold listed. cbn [config_file set_state_file].
      split; [intros H; split; [done | apply not_elem_of_nil] | by intros [H _]].
  - pose proof (listed_after_removal evicted d) as Hlisted.
    pose proof (removeUrlsFromConfig_keeps_state evicted d) as (_ & Hsw & _ & _).
    destruct (removeUrlsFromConfig evicted d) as [[[[]|e] d1] tr];
      cbn [fst snd] in *; [|discriminate].
    destruct (state_writable d1); [|discriminate]. cbn [fst snd] in *.
    exists (CleanupUrls state evicted).1. split_and!; [done| | |].
    + apply cleanup_clears.
    + intros url. apply FailCounts_CleanupUrls.
    + intros url. rewrite <- (Hlisted eq_refl url). unfold listed.
      by cbn [config_file set_state_file].
Qed.

Lemma handleSubsLifecycle_success_witness :
  let d := {| config_file :=
                Holds {[ sub_urls_key := VSlice [VString "x"; VString "y"] ]};
              config_writable := true;
              state_file := Holds (Some {[ "x"%string := 2; "y"%string := 1 ]});
              state_writable := true |} in
  let state := recorded d ["y"%string] ["x"%string] in
  let evicted := GetFailedUrls state 3 in
  let d' := (handleSubsLifecycle 3 ["y"%string] ["x"%string] d).1.2 in
  ∃ final,
    state_file d' = Holds (Some (FailCounts final)) ∧
    GetFailedUrls final 3 = [] ∧
    (∀ url, FailCounts final !! url
            = if bool_decide (url ∈ evicted) then None else FailCounts state !! url) ∧
    (∀ url, listed d' url ↔ listed d url ∧ url ∉ evicted).
Proof.
  intros d.
  apply (handleSubsLifecycle_success 3 ["y"%string] ["x"%string] d).
  - lia.
  - left. discriminate.
  - vm_compute. reflexivity.
Defined.

(** X13: [handleSubsLifecycle] changes the configuration file only in a
    round in which a source named in its source list reached the
    threshold; whatever happens, it calls [os.WriteFile] at most twice
    (once per file) and, when it is disabled or the round has no
    statistics, not at all. *)
Theorem handleSubsLifecycle_config_untouched
    (threshold : Z) (successUrls failedUrls : list string) (d : disk) :
  let out := handleSubsLifecycle threshold successUrls failedUrls d in
  (config_file out.1.2 ≠ config_file d →
     0 < threshold ∧
     ∃ url, url ∈ GetFailedUrls (recorded d successUrls failedUrls) threshold ∧
            listed d url) ∧
  (writes out.2 ≤ 2)%nat ∧
  (threshold ≤ 0 ∨ (successUrls = [] ∧ failedUrls = []) → out = (Ok (), d, [])).
Proof.
  cbn zeta.
  assert (∀ t1 t2, writes (t1 ++ t2) = (writes t1 + writes t2)%nat) as Happ.
  { intros t1 t2. unfold writes. by rewrite filter_app, length_app. }
  assert (∀ t, ¬ writes_state t → (∀ e, e ∈ t → e ≠ WriteFile ConfigPath) →
               writes t = 0%nat) as Hnone.
  { intros t Hs Hc. unfold writes. apply length_zero_iff_nil.
    apply elem_of_nil_inv. intros e [He Hin]%list_elem_of_filter.
    destruct e as [|[|]]; [done| |]; [by apply (Hc _ Hin) | by apply Hs]. }
  split_and!; [| |apply handleSubsLifecycle_off].
  - destruct (decide (threshold ≤ 0)) as [Hoff|Hon].
    { rewrite handleSubsLifecycle_off by (by left). cbn [fst snd]. congruence. }
    destruct successUrls as [|su sus] eqn:Es, failedUrls as [|fu fus] eqn:Ef;
      [rewrite handleSubsLifecycle_off by (by right); cbn [fst snd]; congruence
      | | | ].
    all: rewrite <- ?Es, <- ?Ef.
    all: assert (successUrls ≠ [] ∨ failedUrls ≠ []) as Hstats
           by (subst; (by left) || (by right)).
    all: clear Es Ef.
    all: destruct (state_file_unreadable_dec d) as [Hun|Hread];
      [rewrite handleSubsLifecycle_unreadable by (done || lia);
       cbn [fst snd]; congruence|].
    all: rewrite handleSubsLifecycle_unfold by (done || lia); cbn zeta.
    all: set (evicted := GetFailedUrls _ threshold).
    all: case_bool_decide;
      [destruct (state_writable d); cbn [fst snd config_file set_state_file];
       congruence|].
    all: pose proof (removeUrlsFromConfig_changed evicted d) as Hch.
    all: destruct (removeUrlsFromConfig evicted d) as [[[[]|e] d1] tr];
      cbn [fst snd] in *;
      [destruct (state_writable d1); cbn [fst snd config_file set_state_file]|];
      intros Hne; (split; [lia | by apply Hch]).
  - destruct (decide (threshold ≤ 0)) as [Hoff|Hon].
    { rewrite handleSubsLifecycle_off by (by left). cbn. lia. }
    destruct (decide (successUrls = [] ∧ failedUrls = [])) as [Hempty|Hstats].
    { rewrite handleSubsLifecycle_off by (by right). cbn. lia. }
    assert (successUrls ≠ [] ∨ failedUrls ≠ []) as Hstats'.
    { destruct successUrls; [|by left]. destruct failedUrls; [|by right].
      by destruct Hstats. }
    destruct (state_file_unreadable_dec d) as [Hun|Hread].
    { rewrite handleSubsLifecycle_unreadable by (done || lia). cbn. lia. }
    rewrite handleSubsLifecycle_unfold by (done || lia). cbn zeta.
    set (state := recorded d successUrls failedUrls).
    set (evicted := GetFailedUrls state threshold).
    pose proof (LoadSubsState_logs_only d) as [_ Ht0].
    pose proof (update_each_logs_only (loaded_ledger d) successUrls false) as Ht1.
    pose proof (update_each_logs_only
                  (update_each (loaded_ledger d) successUrls false).1
                  failedUrls true) as Ht2.
    assert (∀ s urls f e, e ∈ (update_each s urls f).2 → e ≠ WriteFile ConfigPath)
      as Hupd.
    { intros s urls f. revert s. induction urls as [|u urls IH]; intros s e;
        cbn [update_each]; [by intros ?%elem_of_nil|].
      destruct (UpdateFailCount s u f) as [s1 t1] eqn:E1.
      specialize (IH s1). destruct (update_each s1 urls f) as [s2 t2].
      cbn [snd] in *. rewrite elem_of_app. intros [Hin|Hin]; [|by apply IH].
      unfold UpdateFailCount in E1. destruct f; simplify_eq.
      - apply list_elem_of_singleton in Hin. by subst.
      - case_bool_decide; [apply list_elem_of_singleton in Hin; by subst
                          | by apply elem_of_nil in Hin]. }
    assert (writes (LoadSubsState d).2 = 0%nat) as Hw0.
    { apply Hnone; [done|]. unfold LoadSubsState.
      destruct (state_file d) as [| | |[c|]]; cbn [snd]; intros e Hin;
        try (by apply elem_of_nil in Hin);
        apply list_elem_of_singleton in Hin; by subst. }
    assert (writes (update_each (loaded_ledger d) successUrls false).2 = 0%nat)
      as Hw1 by (apply Hnone; [done | apply Hupd]).
    assert (writes (update_each (update_each (loaded_ledger d) successUrls false).1
                      failedUrls true).2 = 0%nat)
      as Hw2 by (apply Hnone; [done | apply Hupd]).
    assert (writes (CleanupUrls state evicted).2 = 0%nat) as Hwc.
    { apply Hnone; [apply CleanupUrls_logs_only|].
      generalize state. induction evicted as [|u us IH]; intros s e;
        cbn [CleanupUrls]; [by intros ?%elem_of_nil|].
      specialize (IH {| FailCounts := delete u (FailCounts s) |}).
      destruct (CleanupUrls _ us) as [s2 t]. cbn [snd] in *.
      intros [->|Hin]%elem_of_cons; [done | by apply IH]. }
    assert (writes (removeUrlsFromConfig evicted d).2 ≤ 1)%nat as Hwr.
    { unfold removeUrlsFromConfig, writes.
      destruct (config_file d) as [| | |yamlData]; cbn [snd]; try (cbn; lia).
      destruct (yamlData !! sub_urls_key) as [[| | | |subUrls|]|]; cbn [snd];
        try (cbn; lia).
      destruct (filter_loop _ _ _ _) as [filteredUrls removedCount].
      case_bool_decide; cbn [snd]; [cbn; lia|].
      destruct (config_writable d); cbn [snd];
        rewrite ?filter_cons, ?filter_nil; repeat case_decide;
        cbn [length]; try lia; discriminate. }
    assert (∀ p, writes [WriteFile p] = 1%nat) as Hone by done.
    assert (∀ l m, writes [Log l m] = 0%nat) as Hlog by done.
    case_bool_decide.
    + destruct (state_writable d); cbn [snd];
        rewrite !Happ, Hw0, Hw1, Hw2, Hone; lia.
    + destruct (removeUrlsFromConfig evicted d) as [[[[]|e] d1] tr];
        cbn [fst snd] in *.
      * destruct (state_writable d1); cbn [snd];
          rewrite !Happ, Hw0, Hw1, Hw2, Hwc, Hone, !Hlog; lia.
      * rewrite !Happ, Hw0, Hw1, Hw2, Hlog. lia.
Qed.

Lemma handleSubsLifecycle_config_untouched_witness :
  let d := {| config_file := Holds {[ sub_urls_key := VSlice [VString "x"] ]};
              config_writable := true;
              state_file := Holds (Some {[ "x"%string := 9 ]});
              state_writable := true |} in
  handleSubsLifecycle 0 [] ["x"%string] d = (Ok (), d, []).
Proof.
  intros d.
  apply (proj2 (proj2 (handleSubsLifecycle_config_untouched 0 [] ["x"%string] d))).
  left. lia.
Defined.

(** ** A source that keeps failing *)

Lemma GetFailedUrls_singleton (url : string) (count threshold : Z) :
  0 < threshold →
  GetFailedUrls {| FailCounts := {[ url := count ]} |} threshold
  = if bool_decide (threshold ≤ count) then [url] else [].
Proof.
  intros Hpos. rewrite GetFailedUrls_unfold by done.
  cbn [FailCounts]. rewrite map_to_list_singleton, filter_cons, filter_nil.
  cbn [snd]. by case_decide; case_bool_decide.
Qed.

Lemma removeUrlsFromConfig_set_state (urls : list string) (d : disk)
    (f : file (option (gmap string Z))) :
  removeUrlsFromConfig urls (set_state_file d f)
  = ((removeUrlsFromConfig urls d).1.1,
     set_state_file (removeUrlsFromConfig urls d).1.2 f,
     (removeUrlsFromConfig urls d).2).
Proof.
  unfold removeUrlsFromConfig. cbn [config_file config_writable set_state_file].
  destruct (config_file d) as [| | |yamlData]; try done.
  destruct (yamlData !! sub_urls_key) as [[| | | |subUrls|]|]; try done.
  destruct (filter_loop _ _ _ _) as [filteredUrls removedCount].
  case_bool_decide; [done|]. by destruct (config_writable d).
Qed.

(** One more failing round on a disk whose ledger holds [count] for [url]
    and nothing else ([count = 0]: no state file yet). *)
Lemma failing_round (threshold : Z) (url : string) (d : disk) (count : Z)
    (f : file (option (gmap string Z))) :
  0 < threshold → 0 ≤ count < GoInt.max_int →
  state_writable d = true →
  (count = 0 ∧ f = Missing) ∨ (0 < count ∧ f = Holds (Some {[ url := count ]})) →
  (handleSubsLifecycle threshold [] [url] (set_state_file d f)).1.2
  = if bool_decide (threshold ≤ count + 1)
    then match (removeUrlsFromConfig [url] d).1.1 with
         | Ok _ => set_state_file (removeUrlsFromConfig [url] d).1.2
                     (Holds (Some ∅))
         | Err _ => set_state_file (removeUrlsFromConfig [url] d).1.2 f
         end
    else set_state_file d (Holds (Some {[ url := count + 1 ]})).
Proof.
  intros Hpos Hcount Hw Hf.
  rewrite handleSubsLifecycle_unfold; [|done|by right|].
  2:{ cbn [state_file set_state_file]. by destruct Hf as [[_ ->]|[_ ->]]. }
  assert (recorded (set_state_file d f) [] [url]
          = {| FailCounts := {[ url := count + 1 ]} |}) as Hrec.
  { unfold recorded, loaded_ledger, LoadSubsState.
    cbn [state_file set_state_file update_each fst].
    destruct Hf as [[-> ->]|[Hc ->]].
    - unfold UpdateFailCount, GetFailCount, NewSubsState. cbn [fst FailCounts].
      rewrite lookup_empty. cbn [default]. by f_equal.
    - unfold UpdateFailCount, GetFailCount. cbn [fst FailCounts].
      rewrite lookup_singleton_eq. cbn [default]. f_equal.
      rewrite insert_singleton_eq. f_equal. apply wrap_in_range.
      unfold GoInt.in_range, GoInt.min_int, GoInt.int_size. lia. }
  cbn zeta. rewrite Hrec, GetFailedUrls_singleton by done.
  destruct (decide (threshold ≤ count + 1)) as [Hreach|Hreach].
  - rewrite !(bool_decide_eq_true_2 (threshold ≤ count + 1)) by done.
    rewrite bool_decide_eq_false_2 by done.
    rewrite removeUrlsFromConfig_set_state.
    pose proof (removeUrlsFromConfig_keeps_state [url] d) as (_ & Hsw & _ & _).
    destruct (removeUrlsFromConfig [url] d) as [[[[]|e] d1] tr];
      cbn [fst snd] in *; [|done].
    cbn [state_writable set_state_file]. rewrite Hsw, Hw. cbn [fst snd].
    unfold set_state_file. cbn. f_equal. f_equal. f_equal.
    apply delete_singleton_eq.
  - rewrite !(bool_decide_eq_false_2 (threshold ≤ count + 1)) by done.
    rewrite bool_decide_eq_true_2 by done.
    cbn [state_writable set_state_file]. rewrite Hw. done.
Qed.

Lemma set_state_file_same (d : disk) (f : file (option (gmap string Z))) :
  state_file d = f → set_state_file d f = d.
Proof. destruct d. cbn. by intros ->. Qed.

Lemma failing_rounds_below (n : nat) (url : string) (d : disk) (k : nat) :
  Z.of_nat n ≤ GoInt.max_int →
  state_file d = Missing → state_writable d = true →
  (0 < k < n)%nat →
  failing_rounds (Z.of_nat n) url k d
  = set_state_file d (Holds (Some {[ url := Z.of_nat k ]})).
Proof.
  intros Hfits Hfresh Hw. induction k as [|k IH]; intros Hk; [lia|].
  cbn [failing_rounds].
  destruct k as [|k].
  - cbn [failing_rounds].
    pose proof (failing_round (Z.of_nat n) url d 0 Missing) as Hround.
    rewrite (set_state_file_same d Missing Hfresh) in Hround.
    rewrite Hround; [|lia|lia|done|by left].
    by rewrite bool_decide_eq_false_2 by lia.
  - rewrite IH by lia.
    rewrite (failing_round _ url d (Z.of_nat (S k))); [|lia|lia|done|right; split; [lia|done]].
    rewrite bool_decide_eq_false_2 by lia.
    do 4 f_equal. lia.
Qed.

(** X14: a source that fails in every round is evicted in the round in
    which its count reaches the threshold, not before. Starting without a
    state file, with threshold [n] and a configuration the editor can
    edit: after [k < n] failing rounds the state file holds the count [k]
    for the source and the configuration is as it was; after the [n]-th
    the source is named neither in the source list nor in the state file,
    and the other sources of the list are still there. *)
Theorem repeated_failure_evicts (n : nat) (url : string) (d : disk)
    (Hn : (0 < n)%nat) (Hfits : Z.of_nat n ≤ GoInt.max_int)
    (Hfresh : state_file d = Missing) (Hw : state_writable d = true)
    (Hedit : (removeUrlsFromConfig [url] d).1.1 = Ok ()) :
  (∀ k, (0 < k < n)%nat →
     failing_rounds (Z.of_nat n) url k d
     = set_state_file d (Holds (Some {[ url := Z.of_nat k ]}))) ∧
  state_file (failing_rounds (Z.of_nat n) url n d) = Holds (Some ∅) ∧
  ¬ listed (failing_rounds (Z.of_nat n) url n d) url ∧
  (∀ other, other ≠ url →
     listed (failing_rounds (Z.of_nat n) url n d) other ↔ listed d other).
Proof.
  split; [intros k Hk; by apply failing_rounds_below|].
  assert (failing_rounds (Z.of_nat n) url n d
          = set_state_file (removeUrlsFromConfig [url] d).1.2 (Holds (Some ∅)))
    as Hlast.
  { destruct n as [|m]; [lia|].
    change (failing_rounds (Z.of_nat (S m)) url (S m) d)
      with ((handleSubsLifecycle (Z.of_nat (S m)) [] [url]
               (failing_rounds (Z.of_nat (S m)) url m d)).1.2).
    destruct m as [|m].
    - cbn [failing_rounds].
      pose proof (failing_round (Z.of_nat 1) url d 0 Missing) as Hround.
      rewrite (set_state_file_same d Missing Hfresh) in Hround.
      rewrite Hround; [|lia|lia|done|by left].
      rewrite bool_decide_eq_true_2 by lia. by rewrite Hedit.
    - rewrite failing_rounds_below by (done || lia).
      rewrite (failing_round _ url d (Z.of_nat (S m)));
        [|lia|lia|done|right; split; [lia|done]].
      rewrite bool_decide_eq_true_2 by lia. by rewrite Hedit. }
  rewrite Hlast. pose proof (listed_after_removal [url] d Hedit) as Hlisted.
  unfold listed in *. cbn [state_file config_file set_state_file].
  split_and!; [done| |].
  - intros H. apply Hlisted in H as [_ Hnin]. apply Hnin. left.
  - intros other Hne. rewrite Hlisted. split; [by intros [? _]|].
    intros H. split; [done|]. by intros ->%list_elem_of_singleton.
Qed.

Lemma repeated_failure_evicts_witness :
  let d := {| config_file :=
                Holds {[ sub_urls_key := VSlice [VString "x"; VString "y"] ]};
              config_writable := true;
              state_file := Missing; state_writable := true |} in
  (∀ k, (0 < k < 3)%nat →
     failing_rounds (Z.of_nat 3) "x" k d
     = set_state_file d (Holds (Some {[ "x"%string := Z.of_nat k ]}))) ∧
  state_file (failing_rounds (Z.of_nat 3) "x" 3 d) = Holds (Some ∅) ∧
  ¬ listed (failing_rounds (Z.of_nat 3) "x" 3 d) "x" ∧
  (∀ other, other ≠ "x"%string →
     listed (failing_rounds (Z.of_nat 3) "x" 3 d) other ↔ listed d other).
Proof.
  intros d. apply (repeated_failure_evicts 3 "x"%string d).
  - lia.
  - done.
  - reflexivity.
  - reflexivity.
  - vm_compute. reflexivity.
Defined.

(** ** The timers *)

Lemma idle_no_listener (a : App) : idle a → ∀ k, ¬ listens a k.
Proof.
  intros (Hok & Ht & _) k Hk.
  destruct (loops_current a Hok k Hk) as [_ [t Hsome]]. congruence.
Qed.

Lemma idle_no_ticker (a : App) : idle a → ∀ i, ¬ ticks a i.
Proof.
  intros (Hok & Ht & _) i Hi. pose proof (ticker_current a Hok i Hi). congruence.
Qed.

Lemma New_ok (interval : Z) : timers_ok (New interval).
Proof.
  split; cbn; try done.
  - intros k (c & Hk & _). cbn in Hk. by rewrite lookup_nil in Hk.
  - intros k1 k2 (c & Hk & _). cbn in Hk. by rewrite lookup_nil in Hk.
  - intros i [p Hi]. cbn in Hi. by rewrite lookup_nil in Hi.
Qed.

Lemma stop_ticker_ok (a : App) :
  timers_ok a →
  ∃ a', stop_ticker a = inr a' ∧ timers_ok a' ∧ app_ticker a' = None ∧
        app_cron a' = app_cron a ∧ crons a' = crons a ∧
        app_interval a' = app_interval a ∧
        timer_trace a' = timer_trace a ∧
        loops a' = loops a.
Proof.
  intros Hok. unfold stop_ticker.
  destruct (app_ticker a) as [t|] eqn:Ht.
  2:{ by exists a. }
  rewrite (done_open a Hok). eexists. split; [done|].
  pose proof (done_open a Hok) as Hopen.
  pose proof (lookup_lt_Some _ _ _ Hopen) as Hlt.
  assert (∀ k, ¬ listens
            {| app_interval := app_interval a; app_ticker := None;
               app_done := length (chans a); app_cron := app_cron a;
               tickers := alter (λ tk, (tk.1, false)) t (tickers a);
               chans := <[app_done a := true]> (chans a) ++ [false];
               crons := crons a; loops := loops a;
               timer_trace := timer_trace a |} k) as Hnone.
  { intros k (c & Hk & Hc). cbn in Hk, Hc.
    pose proof (loops_known a Hok k c Hk) as Hcl.
    rewrite lookup_app_l in Hc by (by rewrite length_insert).
    destruct (decide (c = app_done a)) as [->|Hne].
    - rewrite list_lookup_insert_eq in Hc by done. discriminate.
    - rewrite list_lookup_insert_ne in Hc by done.
      destruct (loops_current a Hok k) as [Hcur _]; [by exists c|].
      congruence. }
  split_and!; try done.
  - split; cbn.
    + apply list_lookup_middle. by rewrite length_insert.
    + intros k c Hk. rewrite length_app, length_insert. cbn.
      pose proof (loops_known a Hok k c Hk). lia.
    + intros k Hk. by apply Hnone in Hk.
    + intros k1 k2 Hk. by apply Hnone in Hk.
    + by intros [? ?].
    + intros i [p Hi]. cbn in Hi. rewrite list_lookup_alter in Hi.
      case_decide as Hit.
      * subst i. destruct (tickers a !! t) as [[p' b]|]; cbn in Hi; discriminate.
      * assert (ticks a i) as Hticks by (by exists p).
        pose proof (ticker_current a Hok i Hticks). congruence.
    + done.
    + apply (cron_current a Hok).
    + apply (cron_known a Hok).
    + by intros [? ?].
Qed.

Lemma stop_cron_idle (a : App) :
  timers_ok a → app_ticker a = None →
  idle (stop_cron a) ∧ app_cron (stop_cron a) = None ∧
  app_interval (stop_cron a) = app_interval a ∧
  timer_trace (stop_cron a) = timer_trace a ∧
  loops (stop_cron a) = loops a ∧ chans (stop_cron a) = chans a ∧
  app_done (stop_cron a) = app_done a.
Proof.
  intros Hok Ht. unfold stop_cron.
  destruct (app_cron a) as [c|] eqn:Hc.
  2:{ split_and!; try done. split_and!; try done.
      intros i Hi. pose proof (cron_current a Hok i Hi). congruence. }
  assert (∀ i, ¬ cron_runs
            {| app_interval := app_interval a; app_ticker := app_ticker a;
               app_done := app_done a; app_cron := None;
               tickers := tickers a; chans := chans a;
               crons := <[c := CronStopped]> (crons a);
               loops := loops a; timer_trace := timer_trace a |} i) as Hnone.
  { intros i Hi. unfold cron_runs in Hi. cbn in Hi.
    destruct (decide (i = c)) as [->|Hne].
    - rewrite list_lookup_insert_eq in Hi by (by apply (cron_known a Hok)).
      discriminate.
    - rewrite list_lookup_insert_ne in Hi by done.
      pose proof (cron_current a Hok i Hi). congruence. }
  split_and!; try done. split_and!; try done.
  split; cbn; try (by destruct Hok);
    try (intros i Hi; by apply Hnone in Hi);
    try (intros _ i; apply Hnone).
Qed.

Lemma new_cron_idle (expr : string) (a : App) :
  idle a → idle (new_cron expr a).
Proof.
  intros (Hok & Ht & Hnone). split_and!; [|done|].
  - split; cbn; try (by destruct Hok).
    + intros i Hi. unfold cron_runs in Hi. cbn in Hi.
      apply lookup_app_Some in Hi as [Hi|[_ Hi]]; [by apply Hnone in Hi|].
      apply list_lookup_singleton_Some in Hi as [_ ?]. discriminate.
    + intros c [= <-]. rewrite length_app. cbn. lia.
    + intros _ i Hi. unfold cron_runs in Hi. cbn in Hi.
      apply lookup_app_Some in Hi as [Hi|[_ Hi]]; [by apply Hnone in Hi|].
      apply list_lookup_singleton_Some in Hi as [_ ?]. discriminate.
  - intros i Hi. unfold cron_runs in Hi. cbn in Hi.
    apply lookup_app_Some in Hi as [Hi|[_ Hi]]; [by apply Hnone in Hi|].
    apply list_lookup_singleton_Some in Hi as [_ ?]. discriminate.
Qed.

Lemma log_parse_failed_idle (expr : string) (a : App) :
  idle a → idle (log_parse_failed expr a).
Proof.
  intros (Hok & Ht & Hnone). split_and!; [|done|done].
  split; cbn; by destruct Hok.
Qed.

Lemma cron_Start_ok (a : App) (c : nat) :
  idle a → app_cron a = Some c → (c < length (crons a))%nat →
  timers_ok (cron_Start a) ∧ app_ticker (cron_Start a) = None ∧
  app_cron (cron_Start a) = Some c ∧ cron_runs (cron_Start a) c.
Proof.
  intros (Hok & Ht & Hnone) Hc Hlt. unfold cron_Start. rewrite Hc.
  split_and!; [|done|done|].
  - split; cbn; try (by destruct Hok).
    + intros i Hi. unfold cron_runs in Hi. cbn in Hi.
      destruct (decide (i = c)) as [->|Hne]; [done|].
      rewrite list_lookup_insert_ne in Hi by done. by apply Hnone in Hi.
    + intros c' Hc'. rewrite length_insert. apply (cron_known a Hok). congruence.
    + rewrite Ht. by intros [? ?].
  - unfold cron_runs. cbn. by apply list_lookup_insert_eq.
Qed.

Lemma useIntervalTimer_ok (a : App) :
  idle a →
  let d := GoInt.wrap (app_interval a * time_Minute) in
  if bool_decide (d ≤ 0)
  then useIntervalTimer a = inl PanicNonPositiveInterval
  else ∃ a', useIntervalTimer a = inr a' ∧ timers_ok a' ∧
             app_ticker a' = Some (length (tickers a)) ∧
             tickers a' !! length (tickers a) = Some (d, true) ∧
             (∀ i, ¬ cron_runs a' i) ∧
             app_cron a' = app_cron a ∧
             timer_trace a' = timer_trace a.
Proof.
  intros Hidle. pose proof Hidle as (Hok & Ht & Hnone). cbn zeta.
  unfold useIntervalTimer. case_bool_decide as Hd; [done|].
  eexists. split; [done|].
  pose proof (done_open a Hok) as Hopen.
  assert (∀ k, listens
            {| app_interval := app_interval a;
               app_ticker := Some (length (tickers a));
               app_done := app_done a; app_cron := app_cron a;
               tickers := tickers a ++ [(GoInt.wrap (app_interval a * time_Minute), true)];
               chans := chans a; crons := crons a;
               loops := loops a ++ [app_done a];
               timer_trace := timer_trace a |} k
            → k = length (loops a)) as Hlast.
  { intros k (c & Hk & Hc). cbn in Hk, Hc.
    apply lookup_app_Some in Hk as [Hk|[Hle Hk]].
    - exfalso. apply (idle_no_listener a Hidle k). by exists c.
    - apply list_lookup_singleton_Some in Hk as [Hk _]. lia. }
  split_and!; try done.
  - split; cbn; try (by destruct Hok).
    + intros k c Hk. apply lookup_app_Some in Hk as [Hk|[_ Hk]].
      * by apply (loops_known a Hok k c).
      * apply list_lookup_singleton_Some in Hk as [_ <-].
        by eapply lookup_lt_Some.
    + intros k Hk. pose proof (Hlast k Hk) as ->. split; [|by eexists].
      by apply list_lookup_middle.
    + intros k1 k2 H1 H2. rewrite (Hlast k1 H1), (Hlast k2 H2). done.
    + intros _. exists (length (loops a)), (app_done a). cbn. split; [|done].
      by apply list_lookup_middle.
    + intros i [p Hi]. cbn in Hi.
      apply lookup_app_Some in Hi as [Hi|[Hle Hi]].
      * exfalso. apply (idle_no_ticker a Hidle i). by exists p.
      * apply list_lookup_singleton_Some in Hi as [Hi _]. f_equal. lia.
    + intros t [= <-]. eexists. cbn. by apply list_lookup_middle.
  - cbn. by apply list_lookup_middle.
Qed.

Lemma setTimer_ok (parses : string → bool) (expr : string) (a : App) :
  timers_ok a →
  let d := GoInt.wrap (app_interval a * time_Minute) in
  if bool_decide (expr ≠ ""%string) && parses expr then
    ∃ a', setTimer parses expr a = inr a' ∧ timers_ok a' ∧
          app_ticker a' = None ∧
          (∃ c, app_cron a' = Some c ∧ cron_runs a' c) ∧
          timer_trace a' = timer_trace a ++ [LogUseCron expr]
  else if bool_decide (d ≤ 0) then
    setTimer parses expr a = inl PanicNonPositiveInterval
  else
    ∃ a', setTimer parses expr a = inr a' ∧ timers_ok a' ∧
          (∃ t, app_ticker a' = Some t ∧ tickers a' !! t = Some (d, true)) ∧
          (∀ i, ¬ cron_runs a' i) ∧
          timer_trace a' =
            timer_trace a ++ (if bool_decide (expr ≠ ""%string)
                              then [LogUseCron expr; LogCronParseFailed expr]
                              else []).
Proof.
  intros Hok. cbn zeta. unfold setTimer.
  destruct (stop_ticker_ok a Hok)
    as (a1 & -> & Hok1 & Ht1 & Hc1 & Hcr1 & Hi1 & Htr1 & Hl1).
  destruct (stop_cron_idle a1 Hok1 Ht1)
    as (Hidle2 & Hc2 & Hi2 & Htr2 & _).
  set (a2 := stop_cron a1) in *.
  case_bool_decide as Hexpr; cbn [andb].
  - pose proof (new_cron_idle expr a2 Hidle2) as Hidle3.
    destruct (parses expr) eqn:Hp.
    + destruct (cron_Start_ok (new_cron expr a2) (length (crons a2)) Hidle3)
        as (Hok4 & Ht4 & Hc4 & Hr4); [done|cbn; rewrite length_app; cbn; lia|].
      eexists. split_and!; [done|done|done|by eexists|].
      cbn. by rewrite Htr2, Htr1.
    + pose proof (log_parse_failed_idle expr _ Hidle3) as Hidle4.
      pose proof (useIntervalTimer_ok _ Hidle4) as Huse. cbn zeta in Huse.
      replace (app_interval (log_parse_failed expr (new_cron expr a2)))
        with (app_interval a) in Huse by (cbn; congruence).
      case_bool_decide; [done|].
      destruct Huse as (a' & Heq & Hok' & Ht' & Htk' & Hnr' & _ & Htr').
      exists a'. split_and!; [done|done|by eexists|done|].
      rewrite Htr'. cbn. rewrite Htr2, Htr1. by rewrite <- app_assoc.
  - pose proof (useIntervalTimer_ok _ Hidle2) as Huse. cbn zeta in Huse.
    replace (app_interval a2) with (app_interval a) in Huse by congruence.
    case_bool_decide; [done|].
    destruct Huse as (a' & Heq & Hok' & Ht' & Htk' & Hnr' & _ & Htr').
    exists a'. split_and!; [done|done|by eexists|done|].
    rewrite Htr', Htr2, Htr1. by rewrite app_nil_r.
Qed.

Lemma with_interval_ok (interval : Z) (a : App) :
  timers_ok a → timers_ok (with_interval interval a).
Proof. intros Hok. split; cbn; by destruct Hok. Qed.

Lemma reloads_ok (parses : string → bool) (configs : list (string * Z)) (a : App) :
  timers_ok a →
  match reloads parses configs a with
  | inl p => p = PanicNonPositiveInterval
  | inr a' => timers_ok a'
  end.
Proof.
  revert a. induction configs as [|[expr interval] rest IH]; intros a Hok; [done|].
  cbn [reloads].
  pose proof (setTimer_ok parses expr _ (with_interval_ok interval a Hok)) as Hset.
  cbn zeta in Hset.
  destruct (bool_decide (expr ≠ ""%string) && parses expr).
  - destruct Hset as (a' & -> & Hok' & _). by apply IH.
  - case_bool_decide.
    + by rewrite Hset.
    + destruct Hset as (a' & -> & Hok' & _). by apply IH.
Qed.

Lemma reloads_snoc (parses : string → bool) (configs : list (string * Z))
    (expr : string) (interval : Z) (a : App) :
  reloads parses (configs ++ [(expr, interval)]) a
  = match reloads parses configs a with
    | inl p => inl p
    | inr a' => setTimer parses expr (with_interval interval a')
    end.
Proof.
  revert a. induction configs as [|[e i] rest IH]; intros a; cbn [reloads app].
  - by destruct (setTimer parses expr (with_interval interval a)).
  - destruct (setTimer parses e (with_interval i a)); [done|]. apply IH.
Qed.

(** X15: which timer [setTimer] installs, at start-up and after any
    number of earlier switches. With a cron expression that parses: cron
    is started, there is no ticker and no ticker goroutine is left
    listening. With no expression, or one that does not parse (then the
    use of cron and the parse failure are logged): a ticker with the
    period [interval] minutes and no running cron; unless that period is
    not positive, in which case [time.NewTicker] panics. *)
Theorem setTimer_selects_mode (parses : string → bool)
    (configs : list (string * Z)) (first : Z) (a0 : App)
    (expr : string) (interval : Z)
    (Hbefore : reloads parses configs (New first) = inr a0) :
  let d := GoInt.wrap (interval * time_Minute) in
  let call := setTimer parses expr (with_interval interval a0) in
  if bool_decide (expr ≠ ""%string) && parses expr then
    ∃ a, call = inr a ∧ app_ticker a = None ∧
         (∃ c, app_cron a = Some c ∧ cron_runs a c) ∧
         (∀ i, ¬ ticks a i) ∧ (∀ k, ¬ listens a k) ∧
         timer_trace a = timer_trace a0 ++ [LogUseCron expr]
  else if bool_decide (d ≤ 0) then call = inl PanicNonPositiveInterval
  else
    ∃ a, call = inr a ∧
         (∃ t, app_ticker a = Some t ∧ tickers a !! t = Some (d, true)) ∧
         (∀ i, ¬ cron_runs a i) ∧
         timer_trace a =
           timer_trace a0 ++ (if bool_decide (expr ≠ ""%string)
                               then [LogUseCron expr; LogCronParseFailed expr]
                               else []).
Proof.
  cbn zeta.
  pose proof (reloads_ok parses configs (New first) (New_ok first)) as Hok0.
  rewrite Hbefore in Hok0.
  pose proof (setTimer_ok parses expr _ (with_interval_ok interval a0 Hok0)) as Hset.
  cbn zeta in Hset. change (app_interval (with_interval interval a0)) with interval in Hset.
  destruct (bool_decide (expr ≠ ""%string) && parses expr).
  - destruct Hset as (a & Heq & Hok & Ht & Hc & Htr).
    exists a. split_and!; try done.
    + intros i Hi. pose proof (ticker_current a Hok i Hi). congruence.
    + intros k Hk. destruct (loops_current a Hok k Hk) as [_ [t Hsome]]. congruence.
  - case_bool_decide; [done|].
    destruct Hset as (a & Heq & Hok & Ht & Hc & Htr). by exists a.
Qed.

Lemma setTimer_selects_mode_witness :
  let parses := λ expr : string, bool_decide (expr = "0 */2 * * *"%string) in
  let a0 := New 120 in
  ∃ a, setTimer parses "every day" (with_interval 30 a0) = inr a ∧
       (∃ t, app_ticker a = Some t ∧
             tickers a !! t = Some (GoInt.wrap (30 * time_Minute), true)) ∧
       (∀ i, ¬ cron_runs a i) ∧
       timer_trace a =
         timer_trace a0 ++ [LogUseCron "every day"; LogCronParseFailed "every day"].
Proof.
  intros parses a0.
  apply (setTimer_selects_mode parses [] 120 a0 "every day"%string 30).
  reflexivity.
Defined.

(** X16: [setTimer] never closes a channel twice: whatever the sequence of
    start-up and reloads, the only panic it can run into is the one of
    [time.NewTicker]; when every configured interval is positive and fits
    a [time.Duration] there is none, and [app.done] is an open channel
    afterwards. *)
Theorem reloads_no_double_close (parses : string → bool)
    (configs : list (string * Z)) (first : Z) :
  reloads parses configs (New first) ≠ inl PanicCloseOfClosedChannel ∧
  ((∀ expr interval, (expr, interval) ∈ configs →
      0 < interval ∧ interval * time_Minute ≤ GoInt.max_int) →
   ∃ a, reloads parses configs (New first) = inr a ∧
        chans a !! app_done a = Some false).
Proof.
  split.
  - pose proof (reloads_ok parses configs (New first) (New_ok first)) as Hok.
    destruct (reloads parses configs (New first)); [by subst|done].
  - pose proof (New_ok first) as Hok. revert Hok. generalize (New first).
    induction configs as [|[expr interval] rest IH]; intros a Hok Hpos.
    + exists a. split; [done|]. apply (done_open a Hok).
    + cbn [reloads].
      destruct (Hpos expr interval) as [Hlo Hhi]; [left|].
      pose proof (setTimer_ok parses expr _ (with_interval_ok interval a Hok))
        as Hset.
      cbn zeta in Hset.
      change (app_interval (with_interval interval a)) with interval in Hset.
      rewrite wrap_in_range in Hset.
      2:{ unfold GoInt.in_range, GoInt.min_int, GoInt.int_size, time_Minute in *.
          lia. }
      rewrite (bool_decide_eq_false_2 (interval * time_Minute ≤ 0)) in Hset
        by (unfold time_Minute; lia).
      destruct (bool_decide (expr ≠ ""%string) && parses expr).
      * destruct Hset as (a' & -> & Hok' & _). apply (IH a' Hok').
        intros e i Hin. apply (Hpos e i). by right.
      * destruct Hset as (a' & -> & Hok' & _). apply (IH a' Hok').
        intros e i Hin. apply (Hpos e i). by right.
Qed.

Lemma reloads_no_double_close_witness :
  let parses := λ expr : string, bool_decide (expr = "0 */2 * * *"%string) in
  let configs := [(""%string, 120); ("0 */2 * * *"%string, 120);
                  ("oops"%string, 60); (""%string, 60)] in
  ∃ a, reloads parses configs (New 120) = inr a ∧
       chans a !! app_done a = Some false.
Proof.
  intros parses configs.
  apply (proj2 (reloads_no_double_close parses configs 120)).
  intros expr interval Hin.
  repeat (apply elem_of_cons in Hin as [[= -> ->]|Hin];
          [by vm_compute|]).
  by apply elem_of_nil in Hin.
Defined.

(** X17: after start-up and any number of reloads at most one timer is
    live: at most one ticker ticks, at most one cron scheduler runs, never
    both, at most one ticker goroutine has not been told to stop, and that
    one listens on the current [app.done]; every goroutine started for an
    earlier ticker has had its channel closed. *)
Theorem reloads_one_timer (parses : string → bool)
    (configs : list (string * Z)) (first : Z) (a : App)
    (Hafter : reloads parses configs (New first) = inr a) :
  (∀ i j, ticks a i → ticks a j → i = j) ∧
  (∀ i j, cron_runs a i → cron_runs a j → i = j) ∧
  (∀ i j, ticks a i → ¬ cron_runs a j) ∧
  (∀ k1 k2, listens a k1 → listens a k2 → k1 = k2) ∧
  (∀ k, listens a k → loops a !! k = Some (app_done a)) ∧
  (∀ k c, loops a !! k = Some c → c ≠ app_done a → chans a !! c = Some true) ∧
  ((∃ i, ticks a i) ↔ (∃ k, listens a k)).
Proof.
  pose proof (reloads_ok parses configs (New first) (New_ok first)) as Hok.
  rewrite Hafter in Hok. split_and!.
  - intros i j Hi Hj. pose proof (ticker_current a Hok i Hi).
    pose proof (ticker_current a Hok j Hj). congruence.
  - intros i j Hi Hj. pose proof (cron_current a Hok i Hi).
    pose proof (cron_current a Hok j Hj). congruence.
  - intros i j Hi. apply (one_mode a Hok).
    rewrite (ticker_current a Hok i Hi). by eexists.
  - apply (loops_unique a Hok).
  - intros k Hk. by destruct (loops_current a Hok k Hk).
  - intros k c Hk Hne. pose proof (loops_known a Hok k c Hk) as Hlt.
    destruct (lookup_lt_is_Some_2 _ _ Hlt) as [[|] Hc]; [done|].
    destruct (loops_current a Hok k) as [Hcur _]; [by exists c|]. congruence.
  - split.
    + intros [i Hi]. apply (loops_live a Hok).
      rewrite (ticker_current a Hok i Hi). by eexists.
    + intros [k Hk]. destruct (loops_current a Hok k Hk) as [_ [t Ht]].
      exists t. by apply (ticker_ticks a Hok).
Qed.

Lemma reloads_one_timer_witness :
  let parses := λ expr : string, bool_decide (expr = "0 */2 * * *"%string) in
  let configs := [(""%string, 120); ("0 */2 * * *"%string, 120); (""%string, 60)] in
  ∃ a, reloads parses configs (New 120) = inr a ∧
       ((∃ i, ticks a i) ↔ (∃ k, listens a k)).
Proof.
  intros parses configs. eexists. split; [reflexivity|].
  apply (reloads_one_timer parses configs 120 _ eq_refl).
Defined.

(** ** Rounds and the disk *)

Lemma writes_app (t1 t2 : list event) :
  writes (t1 ++ t2) = (writes t1 + writes t2)%nat.
Proof. unfold writes. by rewrite filter_app, length_app. Qed.

Lemma writes_log (l : level) (m : message) : writes [Log l m] = 0%nat.
Proof. reflexivity. Qed.

Lemma writes_nil : writes [] = 0%nat.
Proof. reflexivity. Qed.

Lemma step_quiet (a : action) (w : world) :
  SubUrlsFailRemove w ≤ 0 ∨ reports_stats a = false →
  SubUrlsFailRemove (step a w) = SubUrlsFailRemove w ∧
  dsk (step a w) = dsk w ∧
  writes (trace (step a w)) = writes (trace w).
Proof.
  intros Hq. unfold step. destruct (exited w); [done|].
  destruct a as [g|g r| | | |].
  - destruct (pc_of w g) as [[| |]|]; try done.
    destruct (checking w) eqn:Hc.
    + rewrite triggerCheck_enter_busy by done.
      destruct g; wsimpl; rewrite writes_app; split_and!; try done; rewrite ?writes_log, ?writes_nil; lia.
    + rewrite triggerCheck_enter_free by done.
      destruct g; wsimpl; rewrite writes_app; split_and!; try done; rewrite ?writes_log, ?writes_nil; lia.
  - destruct (pc_of w g) as [[| |]|]; try done.
    destruct r as [|successUrls failedUrls].
    + rewrite triggerCheck_finish_err. wsimpl. rewrite writes_app.
      split_and!; try done; rewrite ?writes_log, ?writes_nil; lia.
    + unfold triggerCheck_finish, checkProxies_rest.
      rewrite handleSubsLifecycle_off.
      * destruct g; wsimpl; rewrite !writes_app; split_and!; try done; rewrite ?writes_log, ?writes_nil; lia.
      * wsimpl. destruct Hq as [Hq|Hq]; [by left|right].
        by destruct successUrls, failedUrls.
  - by destruct (main w) as [[| |]| |].
  - unfold TriggerCheck.
    destruct (main w); wsimpl; rewrite writes_app; split_and!; try done; rewrite ?writes_log, ?writes_nil; lia.
  - destruct (main w); try done.
  - done.
Qed.

(** X18: rounds that give the lifecycle manager nothing to do leave the
    disk alone. If eviction is disabled (threshold 0 or below), or no
    round of the run reports statistics, then whatever the goroutines do
    and however many rounds run, neither file is written and the disk is
    at the end what it was at the start. *)
Theorem quiet_rounds_leave_disk (w : world) (acts : list action)
    (Hquiet : SubUrlsFailRemove w ≤ 0 ∨ ∀ a, a ∈ acts → reports_stats a = false) :
  dsk (run acts w) = dsk w ∧
  writes (trace (run acts w)) = writes (trace w).
Proof.
  revert w Hquiet. induction acts as [|a acts IH]; intros w Hquiet; [done|].
  rewrite run_cons.
  destruct (step_quiet a w) as (Hthr & Hd & Hw).
  { destruct Hquiet as [?|Hall]; [by left|right]. apply Hall. left. }
  destruct (IH (step a w)) as [Hd' Hw'].
  { destruct Hquiet as [?|Hall]; [left; by rewrite Hthr|right].
    intros b Hb. apply Hall. by right. }
  split; congruence.
Qed.

Lemma quiet_rounds_leave_disk_witness :
  let d := {| config_file := Holds {[ sub_urls_key := VSlice [VString "x"] ]};
              config_writable := true;
              state_file := Holds (Some {[ "x"%string := 9 ]});
              state_writable := true |} in
  let acts := [ACas GMain; AFinish GMain (CheckOk [] ["x"%string]);
               AMainLoop; AManual; AMainGo; ACas (GWorker 0);
               AFinish (GWorker 0) (CheckOk [] ["x"%string])] in
  dsk (run acts (start false 0 d)) = dsk (start false 0 d) ∧
  writes (trace (run acts (start false 0 d))) = writes (trace (start false 0 d)).
Proof.
  intros d acts. apply (quiet_rounds_leave_disk (start false 0 d) acts).
  left. cbn. lia.
Defined.

(** ** The first round *)

Lemma step_before_loop (a : action) (w : world) :
  is_main_loop a = false → (∃ p, main w = MainCall p) →
  (∃ p, main (step a w) = MainCall p) ∧
  (length (workers (step a w))
   ≤ length (workers w) + (if is_timer a then 1 else 0))%nat.
Proof.
  intros Ha [p Hm]. unfold step. destruct (exited w); [split; [eauto | lia]|].
  destruct a as [g|g r| | | |]; try done.
  - destruct (pc_of w g) as [[| |]|] eqn:Hpc; try (split; [eauto | cbn; lia]).
    destruct (checking w) eqn:Hc.
    + rewrite triggerCheck_enter_busy by done.
      destruct g; wsimpl; rewrite ?length_insert; (split; [eauto | lia]).
    + rewrite triggerCheck_enter_free by done.
      destruct g; wsimpl; rewrite ?length_insert; (split; [eauto | lia]).
  - destruct (pc_of w g) as [[| |]|] eqn:Hpc; try (split; [eauto | cbn; lia]).
    destruct r as [|successUrls failedUrls].
    + rewrite triggerCheck_finish_err. wsimpl. split; [eauto | lia].
    + destruct (triggerCheck_finish_ok g successUrls failedUrls w) as (d & t & ->).
      destruct g; wsimpl; rewrite ?length_insert; (split; [eauto | lia]).
  - unfold TriggerCheck. rewrite Hm. wsimpl. split; [eauto | lia].
  - rewrite Hm. split; [eauto | cbn; lia].
  - wsimpl. rewrite length_app. cbn. split; [eauto | lia].
Qed.

(** X19: without a cron expression [Run] executes the first round itself,
    and until that call has returned and [Run] has reached its loop,
    nobody receives on [checkChan]: at every moment of that phase
    [TriggerCheck] takes the busy branch, which logs the warning and
    changes nothing else, and the only goroutines that ever entered
    [triggerCheck] besides [Run] were started by the timer. *)
Theorem first_round_refuses_manual (threshold : Z) (d : disk) (acts : list action)
    (Hphase : ∀ a, a ∈ acts → is_main_loop a = false) :
  let w := run acts (start false threshold d) in
  TriggerCheck w = emit_w [Log LWarn MsgManualBusy] w ∧
  (length (workers w) ≤ length (filter (λ a, is_timer a = true) acts))%nat.
Proof.
  cbn zeta.
  assert (∀ w, (∃ p, main w = MainCall p) →
               (∃ p, main (run acts w) = MainCall p) ∧
               (length (workers (run acts w))
                ≤ length (workers w) + length (filter (λ a, is_timer a = true) acts))%nat)
    as Hrun.
  { induction acts as [|a acts IH]; intros w Hm; [split; [done | cbn; lia]|].
    rewrite run_cons, filter_cons.
    destruct (step_before_loop a w) as [Hm' Hlen]; [apply Hphase; left|done|].
    destruct (IH (λ b Hb, Hphase b (list_elem_of_further _ _ _ Hb)) (step a w) Hm')
      as [Hm'' Hlen'].
    split; [done|]. destruct (is_timer a); case_decide; try done; cbn [length]; lia. }
  destruct (Hrun (start false threshold d)) as [[p Hm] Hlen]; [by eexists|].
  split; [|exact Hlen]. unfold TriggerCheck. by rewrite Hm.
Qed.

Lemma first_round_refuses_manual_witness :
  let d := {| config_file := Holds ∅; config_writable := true;
              state_file := Missing; state_writable := true |} in
  let w := run [ACas GMain; AManual; ATimer; AManual] (start false 3 d) in
  TriggerCheck w = emit_w [Log LWarn MsgManualBusy] w ∧
  (length (workers w)
   ≤ length (filter (λ a, is_timer a = true)
               [ACas GMain; AManual; ATimer; AManual]))%nat.
Proof.
  intros d.
  apply (first_round_refuses_manual 3 d [ACas GMain; AManual; ATimer; AManual]).
  intros a Hin.
  repeat (apply elem_of_cons in Hin as [->|Hin]; [reflexivity|]).
  by apply elem_of_nil in Hin.
Defined.



(** ** Accounting for rounds *)

Lemma update_each_events (s : SubsState) (urls : list string) (failed : bool) :
  lifecycle_events (update_each s urls failed).2.
Proof.
  unfold lifecycle_events. revert s.
  induction urls as [|u urls IH]; intros s; cbn [update_each]; [constructor|].
  destruct (UpdateFailCount s u failed) as [s1 t1] eqn:E1.
  specialize (IH s1). destruct (update_each s1 urls failed) as [s2 t2].
  cbn [snd] in *. apply Forall_app. split; [|done].
  unfold UpdateFailCount in E1. destruct failed; simplify_eq.
  - by repeat constructor.
  - case_bool_decide; by repeat constructor.
Qed.

Lemma CleanupUrls_events (s : SubsState) (urls : list string) :
  lifecycle_events (CleanupUrls s urls).2.
Proof.
  unfold lifecycle_events. revert s.
  induction urls as [|u urls IH]; intros s; cbn [CleanupUrls]; [constructor|].
  specialize (IH {| FailCounts := delete u (FailCounts s) |}).
  destruct (CleanupUrls _ urls) as [s2 t]. cbn [snd] in *. by constructor.
Qed.

Lemma removeUrlsFromConfig_events (urls : list string) (d : disk) :
  lifecycle_events (removeUrlsFromConfig urls d).2.
Proof.
  unfold lifecycle_events, removeUrlsFromConfig.
  destruct (config_file d) as [| | |yamlData]; cbn [snd]; try constructor.
  destruct (yamlData !! sub_urls_key) as [[| | | |subUrls|]|]; cbn [snd];
    try constructor.
  destruct (filter_loop _ _ _ _) as [filteredUrls removedCount].
  case_bool_decide; cbn [snd]; [constructor|].
  destruct (config_writable d); cbn [snd]; by repeat constructor.
Qed.

Lemma LoadSubsState_events (d : disk) : lifecycle_events (LoadSubsState d).2.
Proof.
  unfold lifecycle_events, LoadSubsState.
  destruct (state_file d) as [| | |[c|]]; cbn [snd]; by repeat constructor.
Qed.

Lemma handleSubsLifecycle_events (threshold : Z)
    (successUrls failedUrls : list string) (d : disk) :
  lifecycle_events (handleSubsLifecycle threshold successUrls failedUrls d).2.
Proof.
  destruct (decide (threshold ≤ 0)) as [Hoff|Hon].
  { rewrite handleSubsLifecycle_off by (by left). constructor. }
  destruct (decide (successUrls = [] ∧ failedUrls = [])) as [Hempty|Hstats].
  { rewrite handleSubsLifecycle_off by (by right). constructor. }
  assert (successUrls ≠ [] ∨ failedUrls ≠ []) as Hstats'.
  { destruct successUrls; [|by left]. destruct failedUrls; [|by right].
    by destruct Hstats. }
  destruct (state_file_unreadable_dec d) as [Hun|Hread].
  { rewrite handleSubsLifecycle_unreadable by (done || lia). constructor. }
  rewrite handleSubsLifecycle_unfold by (done || lia). cbn zeta.
  pose proof (LoadSubsState_events d) as H0.
  pose proof (update_each_events (loaded_ledger d) successUrls false) as H1.
  pose proof (update_each_events
                (update_each (loaded_ledger d) successUrls false).1
                failedUrls true) as H2.
  set (state := recorded d successUrls failedUrls).
  set (evicted := GetFailedUrls state threshold).
  pose proof (removeUrlsFromConfig_events evicted d) as H3.
  pose proof (CleanupUrls_events state evicted) as H4.
  unfold lifecycle_events in *.
  case_bool_decide.
  - destruct (state_writable d); cbn [snd]; rewrite !Forall_app;
      split_and!; try done; by repeat constructor.
  - destruct (removeUrlsFromConfig evicted d) as [[[[]|e] d1] tr]; cbn [fst snd] in *.
    + destruct (state_writable d1); cbn [snd]; rewrite !Forall_app;
        split_and!; try done; by repeat constructor.
    + rewrite !Forall_app. split_and!; try done; by repeat constructor.
Qed.

Lemma count_events_app (f : event → bool) (t1 t2 : list event) :
  count_events f (t1 ++ t2) = (count_events f t1 + count_events f t2)%nat.
Proof. unfold count_events. by rewrite filter_app, length_app. Qed.

Lemma count_events_lifecycle (f : event → bool) (t : list event) :
  (∀ e, f e = true → is_scheduler_log e = true) →
  lifecycle_events t → count_events f t = 0%nat.
Proof.
  intros Hf Ht. unfold count_events. apply length_zero_iff_nil.
  apply elem_of_nil_inv. intros e [He Hin]%list_elem_of_filter.
  unfold lifecycle_events in Ht. rewrite Forall_forall in Ht.
  specialize (Ht e Hin). apply Hf in He. congruence.
Qed.

(** The trace a successful round appends, made explicit enough to count
    the scheduler's own records in it. *)
Lemma triggerCheck_finish_trace (g : gid) (successUrls failedUrls : list string)
    (w : world) :
  ∃ d t, lifecycle_events t ∧
         triggerCheck_finish g (CheckOk successUrls failedUrls) w
         = set_pc g (Returned true)
             (set_checking false
                (emit_w ([Log LInfo MsgCheckDone] ++ t ++ [Log LInfo MsgNextCheck])
                   (set_dsk d w))).
Proof.
  unfold triggerCheck_finish, checkProxies_rest.
  pose proof (handleSubsLifecycle_events (SubUrlsFailRemove w) successUrls
                failedUrls (dsk w)) as Hev.
  wsimpl.
  destruct (handleSubsLifecycle _ _ _ _) as [[[[]|e] d] t]; cbn [snd] in Hev.
  - exists d, t. split; [done|]. destruct g; wsimpl; by rewrite <- !app_assoc.
  - exists d, (t ++ [Log LError (MsgLifecycleFailed e)]). split.
    + apply Forall_app. split; [done|]. by repeat constructor.
    + destruct g; wsimpl; by rewrite <- !app_assoc.
Qed.

Lemma count_events_singleton (f : event → bool) (e : event) :
  count_events f [e] = if f e then 1%nat else 0%nat.
Proof.
  unfold count_events. rewrite filter_cons, filter_nil.
  destruct (f e); by case_decide.
Qed.

Lemma count_events_nil (f : event → bool) : count_events f [] = 0%nat.
Proof. reflexivity. Qed.

#[local] Ltac count_simpl :=
  rewrite ?count_events_app, ?count_events_singleton, ?count_events_nil;
  cbn [is_prepare_log is_next_log is_skip_log].

Lemma step_accounted (cron : bool) (a : action) (w : world) :
  accounted cron w → accounted cron (step a w).
Proof.
  unfold accounted, entered, in_check, pending.
  intros (Hprep & Hnext & Hent). unfold step.
  destruct (exited w); [done|].
  destruct a as [g|g r| | | |].
  - destruct (pc_of w g) as [[| |]|] eqn:Hpc; try done.
    destruct (checking w) eqn:Hc.
    + rewrite triggerCheck_enter_busy by done.
      pose proof (count_pc_set_pc in_check_pc g AtCas (Returned false)
                    (emit_w [Log LWarn MsgCheckSkipped] w) Hpc) as Hin.
      pose proof (count_pc_set_pc at_cas_pc g AtCas (Returned false)
                    (emit_w [Log LWarn MsgCheckSkipped] w) Hpc) as Hpe.
      cbn [in_check_pc at_cas_pc] in Hin, Hpe.
      destruct g; wsimpl; rewrite ?length_insert; count_simpl;
        unfold count_pc in *; wsimpl; lia.
    + rewrite triggerCheck_enter_free by done.
      pose proof (count_pc_set_pc in_check_pc g AtCas InCheck
                    (set_rounds (S (rounds w))
                       (emit_w [Log LInfo MsgPrepareCheck] (set_checking true w)))
                    Hpc) as Hin.
      pose proof (count_pc_set_pc at_cas_pc g AtCas InCheck
                    (set_rounds (S (rounds w))
                       (emit_w [Log LInfo MsgPrepareCheck] (set_checking true w)))
                    Hpc) as Hpe.
      cbn [in_check_pc at_cas_pc] in Hin, Hpe.
      destruct g; wsimpl; rewrite ?length_insert; count_simpl;
        unfold count_pc in *; wsimpl; lia.
  - destruct (pc_of w g) as [[| |]|] eqn:Hpc; try done.
    destruct r as [|successUrls failedUrls].
    + rewrite triggerCheck_finish_err. unfold count_pc in *. wsimpl.
      count_simpl. lia.
    + destruct (triggerCheck_finish_trace g successUrls failedUrls w)
        as (d & t & Hev & ->).
      assert (count_events is_prepare_log t = 0%nat) as Hp.
      { apply count_events_lifecycle; [|done]. intros e He.
        unfold is_scheduler_log. by rewrite He. }
      assert (count_events is_next_log t = 0%nat) as Hn.
      { apply count_events_lifecycle; [|done]. intros e He.
        unfold is_scheduler_log. rewrite He. by destruct (is_prepare_log e). }
      assert (count_events is_skip_log t = 0%nat) as Hs.
      { apply count_events_lifecycle; [|done]. intros e He.
        unfold is_scheduler_log. rewrite He.
        by destruct (is_prepare_log e), (is_next_log e). }
      pose proof (count_pc_set_pc in_check_pc g InCheck (Returned true)
                    (set_checking false
                       (emit_w ([Log LInfo MsgCheckDone] ++ t ++ [Log LInfo MsgNextCheck])
                          (set_dsk d w))) Hpc) as Hin.
      pose proof (count_pc_set_pc at_cas_pc g InCheck (Returned true)
                    (set_checking false
                       (emit_w ([Log LInfo MsgCheckDone] ++ t ++ [Log LInfo MsgNextCheck])
                          (set_dsk d w))) Hpc) as Hpe.
      cbn [in_check_pc at_cas_pc] in Hin, Hpe.
      destruct g; wsimpl; rewrite ?length_insert; count_simpl;
        rewrite ?Hp, ?Hn, ?Hs; unfold count_pc in *; wsimpl; lia.
  - destruct (main w) as [[| |]| |] eqn:Hm; try done.
    unfold count_pc in *. wsimpl. rewrite Hm in *. done.
  - unfold TriggerCheck. destruct (main w) as [[| |]| |] eqn:Hm;
      unfold count_pc in *; wsimpl; rewrite ?Hm in *; count_simpl; lia.
  - destruct (main w) as [[| |]| |] eqn:Hm; try done.
    pose proof (count_pc_spawn in_check_pc (set_main MainRecv w)) as Hin.
    pose proof (count_pc_spawn at_cas_pc (set_main MainRecv w)) as Hpe.
    cbn [in_check_pc at_cas_pc] in Hin, Hpe.
    unfold count_pc in *. wsimpl. rewrite Hm in *. rewrite length_app in *.
    cbn [length] in *. lia.
  - pose proof (count_pc_spawn in_check_pc w) as Hin.
    pose proof (count_pc_spawn at_cas_pc w) as Hpe.
    cbn [in_check_pc at_cas_pc] in Hin, Hpe.
    unfold count_pc in *. wsimpl. rewrite length_app in *.
    cbn [length] in *. lia.
Qed.

(** X21: nothing is lost or counted twice. In every state the process can
    reach, the rounds started are as many as the start records in the
    log, and each of them is either the one in flight or has logged its
    next check time; and every goroutine that entered [triggerCheck] is
    waiting at the swap, or has run a round, or has skipped and logged the
    one warning for it. *)
Theorem rounds_accounted (cron : bool) (threshold : Z) (d : disk)
    (acts : list action) :
  let w := run acts (start cron threshold d) in
  count_events is_prepare_log (trace w) = rounds w ∧
  rounds w = (in_check w + count_events is_next_log (trace w))%nat ∧
  entered cron w
  = (pending w + rounds w + count_events is_skip_log (trace w))%nat.
Proof.
  cbn zeta.
  assert (accounted cron (start cron threshold d)) as Hstart
    by (by destruct cron).
  change (accounted cron (run acts (start cron threshold d))).
  revert Hstart. generalize (start cron threshold d).
  induction acts as [|a acts IH]; intros w Hacc; [done|].
  rewrite run_cons. by apply IH, step_accounted.
Qed.
